(** * A generic binary heap: structure/heap/heap.go

    A shallow embedding of the Go package [heap] and the properties of
    its operations.  The slice [h.heaps] is a [list T] read and written
    by index, Go's [int] indices are integers of [Z], a method with a
    pointer receiver is a function from the heap to the heap it leaves
    behind, and a call that can panic returns a [res].

    The two recursive helpers [up] and [down] carry a fuel argument: the
    Go recursion has no explicit bound, and [up_spec] and [down_spec]
    show that the fuel [Push] and [Pop] pass is never used up. *)

From Stdlib Require Import ZArith Lia Sorted.
From stdpp Require Import base tactics option list numbers strings sorting.

Local Open Scope Z_scope.

(** ** Outcomes of a call *)

(** A call returns a value, panics with a message, or exhausts the fuel
    of the model. *)
Inductive res (A : Type) : Type :=
| Done (a : A)
| Panic (msg : string)
| Timeout.

Arguments Done {A} a.
Arguments Panic {A} msg.
Arguments Timeout {A}.

#[global] Instance res_ret : MRet res := fun A a => Done a.

#[global] Instance res_bind : MBind res := fun A B k r =>
  match r with
  | Done a => k a
  | Panic msg => Panic msg
  | Timeout => Timeout
  end.

(** The message of Go's run-time panic on an index outside a slice. *)
Definition index_out_of_range : string := "index out of range".

(** The message of Go's run-time panic on slice bounds outside a slice. *)
Definition slice_out_of_range : string := "slice bounds out of range".

(** ** Slices *)

Section Slice.
Context {T : Type}.

(** [len(s)] as a Go [int]. *)
Definition len (s : list T) : Z := Z.of_nat (length s).

(** The index expression [s[i]] read. *)
Definition at_ (s : list T) (i : Z) : res T :=
  if bool_decide (0 <= i) then
    match s !! Z.to_nat i with
    | Some x => Done x
    | None => Panic index_out_of_range
    end
  else Panic index_out_of_range.

(** The index expression [s[i]] assigned. *)
Definition set_at (s : list T) (i : Z) (x : T) : res (list T) :=
  if bool_decide (0 <= i < len s) then Done (<[Z.to_nat i := x]> s)
  else Panic index_out_of_range.

(** The slice expression [s[:n]], for [n] up to the length (the
    capacity beyond the length is not part of the model). *)
Definition slice_to (s : list T) (n : Z) : res (list T) :=
  if bool_decide (0 <= n <= len s) then Done (take (Z.to_nat n) s)
  else Panic slice_out_of_range.
End Slice.

(** ** The heap *)

Section HeapDef.
Context {T : Type}.

(** [type Heap[T any] struct { heaps []T; lessFunc func(a, b T) bool }] *)
Record Heap : Type := mkHeap {
  heaps : list T;
  lessFunc : T -> T -> bool;
}.

(** The heap [h] after the assignment [h.heaps = s]. *)
Definition with_heaps (h : Heap) (s : list T) : Heap :=
  {| heaps := s; lessFunc := lessFunc h |}.

(** Go's [error] value made by [errors.New]. *)
Definition error : Type := string.

Definition less_required : error :=
  "less function is required to define heap ordering".

(** [NewAny]: the pair of a heap pointer and an error, each of them
    possibly nil; a nil function value is [None]. *)
Definition NewAny (less : option (T -> T -> bool)) : option Heap * option error :=
  match less with
  | None => (None, Some less_required)
  | Some f => (Some {| heaps := []; lessFunc := f |}, None)
  end.

(** [Empty]. *)
Definition Empty (h : Heap) : bool := len (heaps h) =? 0.

(** [Size]. *)
Definition Size (h : Heap) : Z := len (heaps h).

Definition empty_top : string :=
  "cannot retrieve top element from an empty heap".

(** [Top]. *)
Definition Top (h : Heap) : res T :=
  if Empty h then Panic empty_top else at_ (heaps h) 0.

(** [swap]: the right-hand side of the parallel assignment is read
    before either element is written. *)
Definition swap (h : Heap) (i j : Z) : res Heap :=
  a ← at_ (heaps h) j;
  b ← at_ (heaps h) i;
  s1 ← set_at (heaps h) i a;
  s2 ← set_at s1 j b;
  mret (with_heaps h s2).

(** The call [h.lessFunc(h.heaps[i], h.heaps[j])]. *)
Definition precedes (h : Heap) (i j : Z) : res bool :=
  a ← at_ (heaps h) i;
  b ← at_ (heaps h) j;
  mret (lessFunc h a b).

(** [up]; Go's integer division truncates, which is [Z.quot]. *)
Fixpoint up (fuel : nat) (h : Heap) (index : Z) : res Heap :=
  match fuel with
  | O => Timeout
  | S fuel' =>
      if index <=? 0 then mret h
      else
        let parent := Z.quot (index - 1) 2 in
        b ← precedes h index parent;
        if b : bool then
          h' ← swap h index parent;
          up fuel' h' parent
        else mret h
  end.

(** The part of [down] that chooses [smallest]: the test of the left
    child, then the test of the right child against the index chosen so
    far.  The operator [&&] does not read the slice when the child is
    out of bounds. *)
Definition pick (h : Heap) (index : Z) : res Z :=
  let smallest := index in
  let left := 2 * index + 1 in
  let right := 2 * index + 2 in
  smallest ←
    (if left <? len (heaps h) then
       b ← precedes h left smallest;
       mret (if b : bool then left else smallest)
     else mret smallest);
  smallest ←
    (if right <? len (heaps h) then
       b ← precedes h right smallest;
       mret (if b : bool then right else smallest)
     else mret smallest);
  mret smallest.

(** [down]. *)
Fixpoint down (fuel : nat) (h : Heap) (index : Z) : res Heap :=
  match fuel with
  | O => Timeout
  | S fuel' =>
      smallest ← pick h index;
      if smallest =? index then mret h
      else
        h' ← swap h index smallest;
        down fuel' h' smallest
  end.

(** [Push].  The recursion of [up] from the last index is run with as
    much fuel as the slice has elements. *)
Definition Push (h : Heap) (element : T) : res Heap :=
  let h1 := with_heaps h (heaps h ++ [element]) in
  up (length (heaps h1)) h1 (len (heaps h1) - 1).

(** [Pop].  The recursion of [down] from the root is run with as much
    fuel as the slice has elements. *)
Definition Pop (h : Heap) : res Heap :=
  if Empty h then mret h
  else
    h1 ← swap h 0 (len (heaps h) - 1);
    s2 ← slice_to (heaps h1) (len (heaps h1) - 1);
    let h2 := with_heaps h1 s2 in
    if 0 <? len (heaps h2) then down (length (heaps h2)) h2 0
    else mret h2.
End HeapDef.

Arguments Heap T : clear implicits.

(** ** Ordered element types *)

(** The constraint [constraints.Ordered]: a type with the operator [<]. *)
Class Ordered (T : Type) : Type := lt_op : T -> T -> bool.

#[global] Instance Z_Ordered : Ordered Z := Z.ltb.

(** [New]: the heap pointer returned by [NewAny] on the default
    comparator, the error dropped. *)
Definition New {T : Type} `{Ordered T} : option (Heap T) :=
  let defaultLess := fun a b : T => lt_op a b in
  let '(h, _) := NewAny (Some defaultLess) in
  h.

(** ** Sequences of calls *)

Section Calls.
Context {T : Type}.

(** A mutating call of the public interface. *)
Inductive op : Type :=
| OpPush (element : T)
| OpPop.

Definition call (h : Heap T) (o : op) : res (Heap T) :=
  match o with
  | OpPush element => Push h element
  | OpPop => Pop h
  end.

(** The calls of [ops] made one after the other on [h]. *)
Fixpoint run (ops : list op) (h : Heap T) : res (Heap T) :=
  match ops with
  | [] => mret h
  | o :: ops' => h' ← call h o; run ops' h'
  end.

(** [n] times: read [Top()], then call [Pop()]; the values read, in
    the order they were read, and the heap left behind. *)
Fixpoint drain (n : nat) (h : Heap T) : res (list T * Heap T) :=
  match n with
  | O => mret ([], h)
  | S n' =>
      x ← Top h;
      h1 ← Pop h;
      r ← drain n' h1;
      mret (x :: r.1, r.2)
  end.

(** [n] calls of [Pop()]. *)
Fixpoint pops (n : nat) (h : Heap T) : res (Heap T) :=
  match n with
  | O => mret h
  | S n' => h1 ← Pop h; pops n' h1
  end.

(** The number of [Push] calls in [ops]. *)
Fixpoint push_calls (ops : list op) : nat :=
  match ops with
  | [] => 0%nat
  | OpPush _ :: ops' => S (push_calls ops')
  | OpPop :: ops' => push_calls ops'
  end.

(** The number of [Pop] calls in [ops] that find the storage not
    empty, when the calls of [ops] are made on [h]. *)
Fixpoint effective_pops (ops : list op) (h : Heap T) : res nat :=
  match ops with
  | [] => mret 0%nat
  | o :: ops' =>
      let nonempty := negb (Empty h) in
      h' ← call h o;
      r ← effective_pops ops' h';
      mret (match o with
            | OpPush _ => r
            | OpPop => if nonempty then S r else r
            end)
  end.
End Calls.

Arguments op T : clear implicits.

(** ** Orderings *)

(** A comparator that defines a valid ordering for the heap: a strict
    weak order, given as a boolean function. *)
Class StrictWeakOrder {T : Type} (less : T -> T -> bool) : Prop := {
  less_irrefl : forall a, less a a = false;
  less_trans : forall a b c, less a b = true -> less b c = true -> less a c = true;
  less_incomp : forall a b c, less a b = false -> less b c = false -> less a c = false;
}.

(** The operator [<] of an ordered type is a strict total order. *)
Class OrderedLaws (T : Type) `{Ordered T} : Prop := {
  lt_irrefl : forall a : T, lt_op a a = false;
  lt_trans : forall a b c : T, lt_op a b = true -> lt_op b c = true -> lt_op a c = true;
  lt_trichotomy : forall a b : T, lt_op a b = true \/ a = b \/ lt_op b a = true;
}.

(** ** Properties of a storage *)

Section Properties.
Context {T : Type}.
Local Open Scope nat_scope.

(** The heap property: no child strictly precedes its parent. *)
Definition heap_property (less : T -> T -> bool) (s : list T) : Prop :=
  forall i c x y,
    c = 2 * i + 1 \/ c = 2 * i + 2 ->
    s !! i = Some x -> s !! c = Some y ->
    less y x = false.

(** The element [x] is minimal in [s]: no element strictly precedes it. *)
Definition minimal_in (less : T -> T -> bool) (x : T) (s : list T) : Prop :=
  forall e, e ∈ s -> less e x = false.

(** Non-decreasing order under [less]: no element strictly precedes an
    earlier one. *)
Definition nondecreasing (less : T -> T -> bool) (l : list T) : Prop :=
  StronglySorted (fun a b => less b a = false) l.

(** Increasing order under [less]. *)
Definition increasing (less : T -> T -> bool) (l : list T) : Prop :=
  StronglySorted (fun a b => less a b = true) l.
End Properties.

(** ** Auxiliary notions *)

Section Auxiliary.
Context {T : Type} (less : T -> T -> bool).
Implicit Types (s : list T) (n m c : nat).
Local Open Scope nat_scope.

(** The storage after the elements at [n] and [m] changed places. *)
Definition exchanged s n m : list T :=
  match s !! n, s !! m with
  | Some b, Some a => <[m:=b]> (<[n:=a]> s)
  | _, _ => s
  end.

(** The parent of a node that is not the root. *)
Definition parent n : nat := (n - 1) / 2.

(** The element at [c] does not precede the element at its parent. *)
Definition ordered_at s c : Prop :=
  forall x y, s !! c = Some x -> s !! parent c = Some y -> less x y = false.

(** The storage on the way up from [n]: every edge but the one above
    [n] is in order, and the children of [n] do not precede the parent
    of [n]. *)
Definition up_inv s n : Prop :=
  (forall c, 0 < c -> c <> n -> ordered_at s c) /\
  (forall c x z, 0 < n -> 0 < c -> parent c = n ->
     s !! c = Some x -> s !! parent n = Some z -> less x z = false).

(** The storage on the way down from [n]: every edge but those below
    [n] is in order, and the children of [n] do not precede the parent
    of [n]. *)
Definition down_inv s n : Prop :=
  (forall c, 0 < c -> parent c <> n -> ordered_at s c) /\
  (forall c x z, 0 < n -> 0 < c -> parent c = n ->
     s !! c = Some x -> s !! parent n = Some z -> less x z = false).

(** The index [pick] returns, at natural indices. *)
Definition smallest_of s n : nat :=
  let m1 :=
    match s !! (2 * n + 1), s !! n with
    | Some a, Some x => if less a x then 2 * n + 1 else n
    | _, _ => n
    end in
  match s !! (2 * n + 2), s !! m1 with
  | Some b, Some v => if less b v then 2 * n + 2 else m1
  | _, _ => m1
  end.
End Auxiliary.

(** ** Machine integers *)

(** Go's [int] on a 64-bit platform: the value of [z] after wrap-around.
    The indices above are integers of [Z]; [index_arithmetic_fits] shows
    that on a slice of fewer than [2^62] elements no index computed by
    [up] or [down] wraps around. *)
Definition int_wrap (z : Z) : Z := (z + 2 ^ 63) mod 2 ^ 64 - 2 ^ 63.

(** ** Concrete heaps *)

(** A heap of integers under [<] with the storage [s]. *)
Definition heap_of (s : list Z) : Heap Z := {| heaps := s; lessFunc := Z.ltb |}.

(** Four grades under a strict partial order that is not a strict weak
    order: [Bottom] precedes all the others, [Low] precedes [High], and
    [Aside] is comparable to [Bottom] only. *)
Inductive grade : Type := Bottom | Low | High | Aside.

Definition grade_less (a b : grade) : bool :=
  match a, b with
  | Bottom, (Low | High | Aside) => true
  | Low, High => true
  | _, _ => false
  end.

(** * Facts *)

Lemma res_bind_Done {A B : Type} (k : A -> res B) (a : A) : Done a ≫= k = k a.
Proof. done. Qed.

(** ** Slices read and written at natural indices *)

Section SliceFacts.
Context {T : Type}.
Implicit Types (s : list T) (n m k : nat) (x y : T).


Lemma at_nat s n :
  at_ s (Z.of_nat n) =
  match s !! n with Some x => Done x | None => Panic index_out_of_range end.
Proof.
  unfold at_. rewrite bool_decide_eq_true_2 by lia. by rewrite Nat2Z.id.
Qed.

Lemma at_lookup s n x : s !! n = Some x -> at_ s (Z.of_nat n) = Done x.
Proof. intros E. by rewrite at_nat, E. Qed.

Lemma at_negative s i : i < 0 -> at_ s i = Panic index_out_of_range.
Proof. intros Hi. unfold at_. by rewrite bool_decide_eq_false_2 by lia. Qed.

Lemma at_Done s i x :
  at_ s i = Done x <-> 0 <= i /\ s !! Z.to_nat i = Some x.
Proof.
  unfold at_. case_bool_decide; [|split; [done|lia]].
  destruct (s !! Z.to_nat i); split; intros; destruct_and?; simplify_eq; auto.
Qed.

Lemma at_bounds s i x : at_ s i = Done x -> 0 <= i < len s.
Proof.
  intros [Hi E]%at_Done. apply lookup_lt_Some in E. unfold len. lia.
Qed.

Lemma set_at_nat s n x :
  (n < length s)%nat -> set_at s (Z.of_nat n) x = Done (<[n:=x]> s).
Proof.
  intros Hn. unfold set_at, len.
  rewrite bool_decide_eq_true_2 by lia. by rewrite Nat2Z.id.
Qed.

Lemma exchanged_length s n m : length (exchanged s n m) = length s.
Proof.
  unfold exchanged. destruct (s !! n), (s !! m); auto.
  by rewrite !length_insert.
Qed.

Lemma exchanged_lookup s n m k :
  (n < length s)%nat -> (m < length s)%nat ->
  exchanged s n m !! k =
  if decide (k = m) then s !! n else if decide (k = n) then s !! m else s !! k.
Proof.
  intros Hn Hm. unfold exchanged.
  destruct (lookup_lt_is_Some_2 s n Hn) as [b Eb].
  destruct (lookup_lt_is_Some_2 s m Hm) as [a Ea].
  rewrite Eb, Ea. repeat case_decide; subst.
  - rewrite list_lookup_insert_eq; [done|by rewrite length_insert].
  - rewrite list_lookup_insert_ne by done.
    by rewrite list_lookup_insert_eq.
  - by rewrite !list_lookup_insert_ne.
Qed.

Lemma insert_cons_perm s m a b :
  s !! m = Some a -> a :: <[m:=b]> s ≡ₚ b :: s.
Proof.
  revert m. induction s as [|c s IH]; intros [|m] E; simplify_eq/=.
  - apply perm_swap.
  - rewrite perm_swap, (IH m E). apply perm_swap.
Qed.

Lemma exchanged_perm s n m : exchanged s n m ≡ₚ s.
Proof.
  unfold exchanged.
  destruct (s !! n) as [b|] eqn:Eb; [|done].
  destruct (s !! m) as [a|] eqn:Ea; [|done].
  revert n m Eb Ea. induction s as [|c s IH]; intros [|n] [|m] Eb Ea;
    simplify_eq/=; try done.
  - by apply insert_cons_perm.
  - by apply insert_cons_perm.
  - f_equiv. by apply IH.
Qed.

Lemma swap_nat (h : Heap T) n m :
  (n < length (heaps h))%nat -> (m < length (heaps h))%nat ->
  swap h (Z.of_nat n) (Z.of_nat m) =
  Done (with_heaps h (exchanged (heaps h) n m)).
Proof.
  intros Hn Hm. unfold swap, exchanged.
  destruct (lookup_lt_is_Some_2 _ n Hn) as [b Eb].
  destruct (lookup_lt_is_Some_2 _ m Hm) as [a Ea].
  rewrite (at_lookup _ _ _ Ea), (at_lookup _ _ _ Eb), Eb, Ea. simpl.
  rewrite set_at_nat by done. simpl.
  rewrite set_at_nat by (by rewrite length_insert). done.
Qed.

Lemma precedes_nat (h : Heap T) n m x y :
  heaps h !! n = Some x -> heaps h !! m = Some y ->
  precedes h (Z.of_nat n) (Z.of_nat m) = Done (lessFunc h x y).
Proof.
  intros Ex Ey. unfold precedes.
  by rewrite (at_lookup _ _ _ Ex), (at_lookup _ _ _ Ey).
Qed.
End SliceFacts.

(** ** The order on the elements *)

Section OrderFacts.
Context {T : Type} (less : T -> T -> bool) `{!StrictWeakOrder less}.

Lemma less_asym a b : less a b = true -> less b a = false.
Proof.
  intros Hab. destruct (less b a) eqn:Hba; [|done].
  pose proof (less_trans _ _ _ Hab Hba) as Haa.
  by rewrite less_irrefl in Haa.
Qed.

(** What does not precede [b] does not precede anything before [b]. *)
Lemma less_below a b c : less a b = true -> less c b = false -> less c a = false.
Proof.
  intros Hab Hcb. destruct (less c a) eqn:Hca; [|done].
  pose proof (less_trans _ _ _ Hca Hab). congruence.
Qed.
End OrderFacts.

#[global] Instance OrderedLaws_StrictWeakOrder {T : Type} `{OrderedLaws T} :
  StrictWeakOrder (fun a b : T => lt_op a b).
Proof.
  split.
  - apply lt_irrefl.
  - apply lt_trans.
  - intros a b c Hab Hbc. destruct (lt_op a c) eqn:Hac; [|done].
    destruct (lt_trichotomy a b) as [E|[->|E]]; [congruence|congruence|].
    pose proof (lt_trans _ _ _ E Hac). congruence.
Qed.

#[global] Instance Z_OrderedLaws : OrderedLaws Z.
Proof.
  split; unfold lt_op, Z_Ordered.
  - intros a. apply Z.ltb_irrefl.
  - intros a b c. rewrite !Z.ltb_lt. lia.
  - intros a b. rewrite !Z.ltb_lt. lia.
Qed.

(** ** Parents and children *)

Section Tree.
Local Open Scope nat_scope.

Lemma parent_lt n : 0 < n -> parent n < n.
Proof. unfold parent. intros. apply Nat.Div0.div_lt_upper_bound. lia. Qed.

Lemma parent_child n c :
  0 < c -> parent c = n <-> c = 2 * n + 1 \/ c = 2 * n + 2.
Proof.
  unfold parent. intros Hc. split.
  - intros <-. pose proof (Nat.div_mod_eq (c - 1) 2).
    pose proof (Nat.mod_upper_bound (c - 1) 2). lia.
  - intros [-> | ->].
    + replace (2 * n + 1 - 1) with (n * 2) by lia. by apply Nat.div_mul.
    + replace (2 * n + 2 - 1) with (1 + n * 2) by lia.
      rewrite Nat.div_add by done. done.
Qed.

(** Go's truncating division agrees with [parent] below a positive index. *)
Lemma parent_quot n :
  0 < n -> ((Z.of_nat n - 1) ÷ 2)%Z = Z.of_nat (parent n).
Proof.
  intros Hn. unfold parent.
  rewrite Z.quot_div_nonneg by lia.
  rewrite Nat2Z.inj_div. f_equal. lia.
Qed.

(** On a slice of fewer than [2^62] elements, the index arithmetic of
    [Push], [Pop], [up] and [down] stays within Go's [int]. *)
Lemma index_arithmetic_fits (length index : Z) :
  (0 <= index < length)%Z -> (length < 2 ^ 62)%Z ->
  int_wrap (2 * index + 1) = (2 * index + 1)%Z /\
  int_wrap (2 * index + 2) = (2 * index + 2)%Z /\
  int_wrap (index - 1) = (index - 1)%Z /\
  int_wrap (length - 1) = (length - 1)%Z.
Proof.
  intros Hi Hl. unfold int_wrap.
  change (2 ^ 62)%Z with 4611686018427387904%Z in Hl.
  change (2 ^ 63)%Z with 9223372036854775808%Z.
  change (2 ^ 64)%Z with 18446744073709551616%Z.
  repeat split; rewrite Z.mod_small by lia; lia.
Qed.
End Tree.

(** ** The heap property, edge by edge *)

Section Edges.
Context {T : Type} (less : T -> T -> bool).
Implicit Types (s : list T) (n m c : nat).
Local Open Scope nat_scope.

Lemma heap_property_edges s :
  heap_property less s <-> forall c, 0 < c -> ordered_at less s c.
Proof.
  split.
  - intros Hs c Hc x y Hx Hy.
    apply (Hs (parent c) c y x); [|done..]. by apply parent_child.
  - intros Hs i c x y Hc Hx Hy.
    assert (0 < c) as Hpos by lia.
    apply (Hs c Hpos y x); [done|].
    apply (parent_child i c Hpos) in Hc. by rewrite Hc.
Qed.

Lemma heap_property_nil : heap_property less [].
Proof. intros i c x y _ Hx. by rewrite lookup_nil in Hx. Qed.

Lemma up_inv_snoc s x : heap_property less s -> up_inv less (s ++ [x]) (length s).
Proof.
  rewrite heap_property_edges. intros Hs. split.
  - intros c Hc Hne a b Ha Hb.
    assert (c < length s).
    { apply lookup_lt_Some in Ha. rewrite length_app in Ha. simpl in Ha. lia. }
    pose proof (parent_lt c Hc).
    rewrite lookup_app_l in Ha, Hb by lia. by apply (Hs c Hc).
  - intros c a z _ Hc Hp Ha _.
    apply lookup_lt_Some in Ha. rewrite length_app in Ha. simpl in Ha.
    apply parent_child in Hp; [lia|done].
Qed.

Lemma up_inv_stop s n :
  up_inv less s n -> (0 < n -> ordered_at less s n) -> heap_property less s.
Proof.
  intros [H1 _] Hn. apply heap_property_edges. intros c Hc.
  destruct (decide (c = n)) as [->|]; auto.
Qed.

Lemma down_inv_stop s n :
  down_inv less s n ->
  (forall c, 0 < c -> parent c = n -> ordered_at less s c) ->
  heap_property less s.
Proof.
  intros [H1 _] Hn. apply heap_property_edges. intros c Hc.
  destruct (decide (parent c = n)); auto.
Qed.

Context `{!StrictWeakOrder less}.

Lemma up_inv_step s n x y :
  up_inv less s n -> 0 < n ->
  s !! n = Some x -> s !! parent n = Some y -> less x y = true ->
  up_inv less (exchanged s n (parent n)) (parent n).
Proof.
  intros [H1 H2] Hn Hx Hy Hxy.
  pose proof (parent_lt n Hn) as Hpn.
  pose proof (lookup_lt_Some _ _ _ Hx) as Ln.
  pose proof (lookup_lt_Some _ _ _ Hy) as Lp.
  split.
  - intros c Hc Hcp a b.
    pose proof (parent_lt c Hc).
    rewrite !exchanged_lookup by done.
    repeat case_decide; subst; rewrite ?Hx, ?Hy; intros Ha Hb; try lia.
    + injection Ha as <-. injection Hb as <-. by apply less_asym.
    + injection Hb as <-. apply (less_below less x y); [done|].
      apply (H1 c); [done..|]. congruence.
    + injection Hb as <-. apply (H2 c); [done..|]. congruence.
    + by apply (H1 c).
  - intros c a z Hp Hc Hcp.
    pose proof (parent_lt c Hc). pose proof (parent_lt _ Hp).
    rewrite !exchanged_lookup by done.
    repeat case_decide; subst; rewrite ?Hx, ?Hy; intros Ha Hz; try lia.
    + injection Ha as <-. apply (H1 (parent n)); [done|lia|done..].
    + apply (less_incomp a y z).
      * apply (H1 c); [done..|]. congruence.
      * apply (H1 (parent n)); [done|lia|done..].
Qed.
End Edges.

(** ** The choice made by sift-down *)

Section Choice.
Context {T : Type} (less : T -> T -> bool).
Implicit Types (s : list T) (n m c : nat).
Local Open Scope nat_scope.

Lemma smallest_of_range s n :
  n < length s ->
  smallest_of less s n < length s /\
  (smallest_of less s n = n \/ smallest_of less s n = 2 * n + 1 \/
   smallest_of less s n = 2 * n + 2).
Proof.
  intros Hn. unfold smallest_of.
  destruct (s !! (2 * n + 1)) as [a|] eqn:El;
    destruct (s !! (2 * n + 2)) as [b|] eqn:Er;
    destruct (s !! n) as [x|] eqn:Ex;
    repeat match goal with
      | H : _ !! _ = Some _ |- _ => apply lookup_lt_Some in H
      | |- context [if ?b then _ else _] => destruct b
      | |- context [match ?o with Some _ => _ | None => _ end] => destruct o
      end; lia.
Qed.

Context `{!StrictWeakOrder less}.

(** The chosen element is the root itself or a child that precedes it,
    and no child of [n] precedes the chosen element. *)
Lemma smallest_of_spec s n x :
  s !! n = Some x ->
  exists v, s !! smallest_of less s n = Some v /\
    (smallest_of less s n = n \/
     (0 < smallest_of less s n /\ parent (smallest_of less s n) = n /\ less v x = true)) /\
    (forall c a, 0 < c -> parent c = n -> s !! c = Some a -> less a v = false).
Proof.
  intros Ex. unfold smallest_of. rewrite Ex.
  assert (forall c, 0 < c -> parent c = n -> c = 2 * n + 1 \/ c = 2 * n + 2) as Hch.
  { intros c Hc Hp. by apply parent_child. }
  assert (parent (2 * n + 1) = n) as Pl by (apply parent_child; lia).
  assert (parent (2 * n + 2) = n) as Pr by (apply parent_child; lia).
  destruct (s !! (2 * n + 1)) as [a|] eqn:El.
  - destruct (less a x) eqn:Hax.
    + rewrite El. destruct (s !! (2 * n + 2)) as [b|] eqn:Er.
      * destruct (less b a) eqn:Hba.
        -- exists b. split; [done|]. split.
           ++ right. split; [lia|]. split; [done|]. by apply (less_trans b a x).
           ++ intros c e Hc Hp He. destruct (Hch c Hc Hp); simplify_eq.
              ** by apply less_asym.
              ** apply less_irrefl.
        -- exists a. split; [done|]. split.
           ++ right. split; [lia|]. done.
           ++ intros c e Hc Hp He. destruct (Hch c Hc Hp); simplify_eq.
              ** apply less_irrefl.
              ** done.
      * exists a. split; [done|]. split.
        -- right. split; [lia|]. done.
        -- intros c e Hc Hp He. destruct (Hch c Hc Hp); simplify_eq.
           apply less_irrefl.
    + rewrite Ex. destruct (s !! (2 * n + 2)) as [b|] eqn:Er.
      * destruct (less b x) eqn:Hbx.
        -- exists b. split; [done|]. split.
           ++ right. split; [lia|]. done.
           ++ intros c e Hc Hp He. destruct (Hch c Hc Hp); simplify_eq.
              ** by apply (less_below less b x).
              ** apply less_irrefl.
        -- exists x. split; [done|]. split; [by left|].
           intros c e Hc Hp He. by destruct (Hch c Hc Hp); simplify_eq.
      * exists x. split; [done|]. split; [by left|].
        intros c e Hc Hp He. by destruct (Hch c Hc Hp); simplify_eq.
  - rewrite Ex.
    assert (s !! (2 * n + 2) = None) as ->.
    { apply lookup_ge_None. apply lookup_ge_None in El. lia. }
    exists x. split; [done|]. split; [by left|].
    intros c e Hc Hp He. apply lookup_ge_None in El.
    apply lookup_lt_Some in He. destruct (Hch c Hc Hp); lia.
Qed.

Lemma down_inv_step s n m x v :
  down_inv less s n -> 0 < m -> parent m = n ->
  s !! n = Some x -> s !! m = Some v -> less v x = true ->
  (forall c a, 0 < c -> parent c = n -> s !! c = Some a -> less a v = false) ->
  down_inv less (exchanged s n m) m.
Proof.
  intros [H1 H2] Hm Hp Hx Hv Hvx Hmin.
  pose proof (parent_lt m Hm) as Hlt.
  pose proof (lookup_lt_Some _ _ _ Hx) as Ln.
  pose proof (lookup_lt_Some _ _ _ Hv) as Lm.
  split.
  - intros c Hc Hcp a b.
    pose proof (parent_lt c Hc).
    rewrite !exchanged_lookup by done.
    destruct (decide (c = m)) as [->|Hcm].
    + rewrite Hp. rewrite decide_False by lia. rewrite decide_True by done.
      rewrite Hx, Hv. intros [= <-] [= <-]. by apply less_asym.
    + destruct (decide (c = n)) as [->|Hcn].
      * rewrite Hv. rewrite !decide_False by lia. intros [= <-] Hb.
        apply (H2 m); [lia|done..].
      * rewrite decide_False by done.
        destruct (decide (parent c = n)) as [Hpc|Hpc].
        -- rewrite Hv. intros Ha [= <-]. by apply (Hmin c).
        -- intros Ha Hb. by apply (H1 c).
  - intros c a z _ Hc Hcp.
    pose proof (parent_lt c Hc).
    rewrite !exchanged_lookup by done.
    rewrite Hp. rewrite !decide_False by lia. rewrite decide_True by done.
    rewrite Hv. intros Ha [= <-].
    apply (H1 c); [done|lia|done|]. by rewrite Hcp.
Qed.
End Choice.

(** ** The recursive helpers *)

Section Sifting.
Context {T : Type}.
Implicit Types (h : Heap T) (s : list T) (n m : nat).

Lemma with_heaps_id h : with_heaps h (heaps h) = h.
Proof. by destruct h. Qed.

Lemma with_heaps_twice h s s' : with_heaps (with_heaps h s) s' = with_heaps h s'.
Proof. done. Qed.

(** [up] from a valid index returns once the fuel exceeds the index;
    it permutes the storage, and it restores the heap property when
    only the edge above the index may be out of order. *)
Lemma up_spec fuel h n :
  (n < length (heaps h))%nat -> (n < fuel)%nat ->
  exists s', up fuel h (Z.of_nat n) = Done (with_heaps h s') /\
    s' ≡ₚ heaps h /\
    (StrictWeakOrder (lessFunc h) -> up_inv (lessFunc h) (heaps h) n ->
     heap_property (lessFunc h) s').
Proof.
  revert h n. induction fuel as [|fuel IH]; intros h n Hn Hf; [lia|].
  simpl. destruct n as [|n'].
  - exists (heaps h). rewrite with_heaps_id. split; [done|]. split; [done|].
    intros _ Hinv. apply (up_inv_stop _ _ 0%nat); [done|lia].
  - set (n := S n') in *. assert (0 < n)%nat as Hpos by lia.
    pose proof (parent_lt n Hpos) as Hp.
    replace (Z.of_nat n <=? 0) with false by (symmetry; apply Z.leb_gt; lia).
    rewrite parent_quot by done.
    destruct (lookup_lt_is_Some_2 (heaps h) n Hn) as [x Ex].
    destruct (lookup_lt_is_Some_2 (heaps h) (parent n)) as [y Ey]; [lia|].
    rewrite (precedes_nat h _ _ _ _ Ex Ey). simpl.
    destruct (lessFunc h x y) eqn:Hxy.
    + rewrite swap_nat by lia. simpl.
      destruct (IH (with_heaps h (exchanged (heaps h) n (parent n))) (parent n))
        as (s' & Hup & Hperm & Hord).
      { simpl. rewrite exchanged_length. lia. }
      { lia. }
      exists s'. split; [done|]. split.
      * rewrite Hperm. simpl. apply exchanged_perm.
      * intros Hless Hinv. apply Hord; [done|]. simpl.
        by apply (up_inv_step _ _ _ x y).
    + exists (heaps h). rewrite with_heaps_id. split; [done|]. split; [done|].
      intros _ Hinv. apply (up_inv_stop _ _ n); [done|].
      intros _ a b Ha Hb. congruence.
Qed.

(** One test of [pick]: the child at [c] against the index chosen so far. *)
Lemma pick_test h c m :
  (m < length (heaps h))%nat ->
  (if Z.of_nat c <? len (heaps h) then
     b ← precedes h (Z.of_nat c) (Z.of_nat m);
     mret (if b : bool then Z.of_nat c else Z.of_nat m)
   else mret (Z.of_nat m)) =
  Done (Z.of_nat
    match heaps h !! c, heaps h !! m with
    | Some a, Some v => if lessFunc h a v then c else m
    | _, _ => m
    end).
Proof.
  intros Hm. destruct (lookup_lt_is_Some_2 _ m Hm) as [v Ev]. rewrite Ev.
  destruct (heaps h !! c) as [a|] eqn:Ea.
  - pose proof (lookup_lt_Some _ _ _ Ea).
    replace (Z.of_nat c <? len (heaps h)) with true
      by (symmetry; apply Z.ltb_lt; unfold len; lia).
    rewrite (precedes_nat h _ _ _ _ Ea Ev). simpl. by destruct (lessFunc h a v).
  - apply lookup_ge_None in Ea.
    replace (Z.of_nat c <? len (heaps h)) with false
      by (symmetry; apply Z.ltb_ge; unfold len; lia).
    done.
Qed.

Lemma pick_nat h n :
  (n < length (heaps h))%nat ->
  pick h (Z.of_nat n) = Done (Z.of_nat (smallest_of (lessFunc h) (heaps h) n)).
Proof.
  intros Hn. unfold pick, smallest_of.
  replace (2 * Z.of_nat n + 1) with (Z.of_nat (2 * n + 1)) by lia.
  replace (2 * Z.of_nat n + 2) with (Z.of_nat (2 * n + 2)) by lia.
  rewrite (pick_test h (2 * n + 1) n Hn), res_bind_Done.
  rewrite pick_test; [done|].
  destruct (heaps h !! (2 * n + 1)%nat) as [a|] eqn:E; [|done].
  apply lookup_lt_Some in E. destruct (heaps h !! n) as [x|]; [|done].
  by destruct (lessFunc h a x).
Qed.

(** [down] from a valid index returns when the fuel covers the indices
    from it to the end of the storage; it permutes the storage, and it
    restores the heap property when only the edges below the index may
    be out of order. *)
Lemma down_spec fuel h n :
  (n < length (heaps h))%nat -> (length (heaps h) - n <= fuel)%nat ->
  exists s', down fuel h (Z.of_nat n) = Done (with_heaps h s') /\
    s' ≡ₚ heaps h /\
    (StrictWeakOrder (lessFunc h) -> down_inv (lessFunc h) (heaps h) n ->
     heap_property (lessFunc h) s').
Proof.
  revert h n. induction fuel as [|fuel IH]; intros h n Hn Hf; [lia|].
  simpl. rewrite pick_nat by done. simpl.
  pose proof (smallest_of_range (lessFunc h) (heaps h) n Hn) as [Hm Hcase].
  remember (smallest_of (lessFunc h) (heaps h) n) as m eqn:Em.
  destruct (decide (m = n)) as [E|NE].
  - rewrite E, Z.eqb_refl. exists (heaps h). rewrite with_heaps_id.
    split; [done|]. split; [done|].
    intros Hless Hinv. apply (down_inv_stop _ _ n); [done|].
    intros c Hc Hp a x Ha Hx. rewrite Hp in Hx.
    destruct (smallest_of_spec (lessFunc h) (heaps h) n x Hx) as (v & Hv & _ & Hmin).
    rewrite <- Em, E, Hx in Hv. injection Hv as <-. by apply (Hmin c).
  - replace (Z.of_nat m =? Z.of_nat n) with false by (symmetry; apply Z.eqb_neq; lia).
    rewrite swap_nat by done. simpl.
    destruct (IH (with_heaps h (exchanged (heaps h) n m)) m)
      as (s' & Hdown & Hperm & Hord).
    { simpl. by rewrite exchanged_length. }
    { simpl. rewrite exchanged_length. lia. }
    exists s'. split; [done|]. split.
    + rewrite Hperm. simpl. apply exchanged_perm.
    + intros Hless Hinv. apply Hord; [done|]. simpl.
      destruct (lookup_lt_is_Some_2 (heaps h) n Hn) as [x Hx].
      destruct (smallest_of_spec (lessFunc h) (heaps h) n x Hx)
        as (v & Hv & [E|(Hpos & Hp & Hvx)] & Hmin); rewrite <- Em in *; [done|].
      by apply (down_inv_step _ _ _ _ x v).
Qed.
End Sifting.

(** ** The public operations *)

Section Operations.
Context {T : Type}.
Implicit Types (h : Heap T) (s : list T).

Lemma Empty_nil h : Empty h = true <-> heaps h = [].
Proof.
  unfold Empty, len. rewrite Z.eqb_eq. destruct (heaps h); simpl; [done|].
  split; [lia|done].
Qed.

Lemma Empty_Size h : Empty h = true <-> Size h = 0.
Proof. unfold Empty, Size. apply Z.eqb_eq. Qed.

Lemma Size_length h : Size h = Z.of_nat (length (heaps h)).
Proof. done. Qed.

Lemma Top_cons h r t : heaps h = r :: t -> Top h = Done r.
Proof.
  intros E. unfold Top.
  destruct (Empty h) eqn:He; [apply Empty_nil in He; congruence|].
  by rewrite E.
Qed.

(** [Push] returns; the storage it leaves is a permutation of the old
    one with the new element, and it keeps the heap property. *)
Lemma Push_spec h x :
  exists s', Push h x = Done (with_heaps h s') /\
    s' ≡ₚ x :: heaps h /\
    (StrictWeakOrder (lessFunc h) -> heap_property (lessFunc h) (heaps h) ->
     heap_property (lessFunc h) s').
Proof.
  unfold Push. simpl.
  replace (len (heaps h ++ [x]) - 1) with (Z.of_nat (length (heaps h)))
    by (unfold len; rewrite length_app; simpl; lia).
  destruct (up_spec (length (heaps h ++ [x]))
              (with_heaps h (heaps h ++ [x])) (length (heaps h)))
    as (s' & Hup & Hperm & Hord); simpl; try (rewrite length_app; simpl; lia).
  exists s'. split; [done|]. split.
  - rewrite Hperm. simpl. by rewrite Permutation_app_comm.
  - intros Hless Hs. apply Hord; [done|]. simpl. by apply up_inv_snoc.
Qed.

Lemma exchanged_last r (mid : list T) z :
  exchanged (r :: mid ++ [z]) 0 (length (mid ++ [z])) = z :: mid ++ [r].
Proof.
  unfold exchanged. rewrite length_app. simpl.
  replace (length mid + 1)%nat with (S (length mid)) by lia. simpl.
  rewrite lookup_app_r by lia. rewrite Nat.sub_diag. simpl.
  f_equal. rewrite insert_app_r_alt by lia. by rewrite Nat.sub_diag.
Qed.

Lemma down_inv_root less r (mid : list T) z :
  heap_property less (r :: mid ++ [z]) -> down_inv less (z :: mid) 0.
Proof.
  rewrite heap_property_edges. intros Hs. split; [|lia].
  intros c Hc Hp a b Ha Hb.
  pose proof (parent_lt c Hc).
  destruct c as [|c]; [lia|].
  destruct (parent (S c)) as [|p] eqn:Ep; [done|].
  simpl in Ha, Hb.
  apply (Hs (S c)); [lia| |].
  - simpl. by apply lookup_app_l_Some.
  - rewrite Ep. simpl. by apply lookup_app_l_Some.
Qed.

(** [Pop] on a storage that is not empty returns; the storage it leaves
    with the old root is a permutation of the old one, and it keeps the
    heap property. *)
Lemma Pop_spec h r t :
  heaps h = r :: t ->
  exists s', Pop h = Done (with_heaps h s') /\
    r :: s' ≡ₚ heaps h /\
    (StrictWeakOrder (lessFunc h) -> heap_property (lessFunc h) (heaps h) ->
     heap_property (lessFunc h) s').
Proof.
  intros E. unfold Pop.
  destruct (Empty h) eqn:He; [apply Empty_nil in He; congruence|].
  replace (len (heaps h) - 1) with (Z.of_nat (length t))
    by (unfold len; rewrite E; simpl; lia).
  pose proof (swap_nat h 0 (length t)) as Hswap.
  change (Z.of_nat 0) with 0 in Hswap.
  rewrite Hswap by (rewrite E; simpl; lia). clear Hswap.
  rewrite res_bind_Done. rewrite E. simpl heaps.
  unfold slice_to, len. rewrite exchanged_length. simpl length.
  rewrite bool_decide_eq_true_2 by lia. rewrite res_bind_Done.
  replace (Z.to_nat (Z.of_nat (S (length t)) - 1)) with (length t) by lia.
  destruct t as [|z mid _] using rev_ind.
  - simpl. exists []. split; [done|]. split; [done|].
    intros _ _. apply heap_property_nil.
  - rewrite exchanged_last.
    replace (take (length (mid ++ [z])) (z :: mid ++ [r])) with (z :: mid).
    2:{ rewrite length_app. simpl.
        replace (length mid + 1)%nat with (S (length mid)) by lia. simpl.
        by rewrite take_app_length. }
    simpl heaps. simpl length.
    replace (0 <? Z.of_nat (S (length mid))) with true
      by (symmetry; apply Z.ltb_lt; lia).
    destruct (down_spec (S (length mid)) (with_heaps h (z :: mid)) 0)
      as (s' & Hdown & Hperm & Hord); simpl; try lia.
    exists s'. split; [done|]. split.
    + rewrite Hperm. simpl. f_equiv.
      by rewrite (Permutation_app_comm mid [z]).
    + intros Hless Hs. apply Hord; [done|]. simpl.
      by apply (down_inv_root _ r).
Qed.

(** [Pop] on an empty storage returns the heap as it is. *)
Lemma Pop_nil h : heaps h = [] -> Pop h = Done h.
Proof. intros E. unfold Pop. apply Empty_nil in E. by rewrite E. Qed.

(** The root of a storage with the heap property is minimal in it. *)
Lemma root_minimal less `{!StrictWeakOrder less} s r :
  heap_property less s -> s !! 0%nat = Some r -> minimal_in less r s.
Proof.
  rewrite heap_property_edges. intros Hs Hr e He.
  apply list_elem_of_lookup in He as [i Hi]. revert e Hi.
  induction (lt_wf i) as [i _ IH]. intros e Hi.
  destruct (decide (i = 0%nat)) as [->|Hne].
  - rewrite Hr in Hi. injection Hi as <-. apply less_irrefl.
  - assert (0 < i)%nat as Hpos by lia.
    pose proof (parent_lt i Hpos) as Hp.
    destruct (lookup_lt_is_Some_2 s (parent i)) as [y Hy].
    { apply lookup_lt_Some in Hi. lia. }
    apply (less_incomp e y r).
    + by apply (Hs i Hpos).
    + by apply (IH (parent i)).
Qed.
End Operations.

(** ** Sequences of calls *)

Section CallFacts.
Context {T : Type}.
Implicit Types (h : Heap T) (s : list T) (ops : list (op T)).

(** Every call returns, moves the size by one or leaves an empty
    storage empty, and keeps the heap property. *)
Lemma call_spec h o :
  exists s', call h o = Done (with_heaps h s') /\
    length s' =
      match o with
      | OpPush _ => S (length (heaps h))
      | OpPop => pred (length (heaps h))
      end /\
    (StrictWeakOrder (lessFunc h) -> heap_property (lessFunc h) (heaps h) ->
     heap_property (lessFunc h) s').
Proof.
  destruct o as [x|]; simpl.
  - destruct (Push_spec h x) as (s' & Hpush & Hperm & Hord).
    exists s'. split; [done|]. split; [|done].
    by rewrite (Permutation_length Hperm).
  - destruct (heaps h) as [|r t] eqn:E.
    + exists []. rewrite (Pop_nil h E). split; [|done].
      by rewrite <- E, with_heaps_id.
    + destruct (Pop_spec h r t E) as (s' & Hpop & Hperm & Hord).
      exists s'. split; [done|]. split; [|by rewrite <- E].
      apply Permutation_length in Hperm. rewrite E in Hperm. simpl in *. lia.
Qed.

Lemma run_spec ops h :
  exists s', run ops h = Done (with_heaps h s') /\
    (StrictWeakOrder (lessFunc h) -> heap_property (lessFunc h) (heaps h) ->
     heap_property (lessFunc h) s').
Proof.
  revert h. induction ops as [|o ops IH]; intros h; simpl.
  - exists (heaps h). by rewrite with_heaps_id.
  - destruct (call_spec h o) as (s1 & -> & _ & Hord1). rewrite res_bind_Done.
    destruct (IH (with_heaps h s1)) as (s' & -> & Hord).
    exists s'. split; [done|]. intros Hless Hs. apply Hord; simpl; auto.
Qed.

Lemma run_size ops h :
  exists h' q, run ops h = Done h' /\ effective_pops ops h = Done q /\
    Size h' = Size h + Z.of_nat (push_calls ops) - Z.of_nat q.
Proof.
  revert h. induction ops as [|o ops IH]; intros h; simpl.
  - exists h, 0%nat. repeat split; lia.
  - destruct (call_spec h o) as (s1 & -> & Hlen & _). rewrite !res_bind_Done.
    destruct (IH (with_heaps h s1)) as (h' & q & -> & -> & Hsize).
    rewrite res_bind_Done. unfold Size, len in *. simpl in Hsize.
    rewrite Hlen in Hsize.
    destruct o as [x|].
    + exists h', q. repeat split; lia.
    + destruct (Empty h) eqn:He; simpl.
      * apply Empty_nil in He. rewrite He in *. exists h', q.
        repeat split; simpl in *; lia.
      * exists h', (S q). split; [done|]. split; [done|].
        destruct (heaps h) eqn:E; [by apply Empty_nil in E; congruence|].
        simpl in *. lia.
Qed.

Lemma pops_nil n h : heaps h = [] -> pops n h = Done h.
Proof.
  intros E. induction n as [|n IH]; simpl; [done|].
  by rewrite (Pop_nil h E), res_bind_Done.
Qed.

(** Draining a heap reads its elements in non-decreasing order. *)
Lemma drain_spec n h :
  StrictWeakOrder (lessFunc h) -> heap_property (lessFunc h) (heaps h) ->
  length (heaps h) = n ->
  exists out, drain n h = Done (out, with_heaps h []) /\
    out ≡ₚ heaps h /\ nondecreasing (lessFunc h) out.
Proof.
  intros Hless. revert h Hless.
  induction n as [|n IH]; intros h Hless Hs Hn; simpl.
  - destruct (heaps h) eqn:E; [|done]. exists [].
    rewrite <- E, with_heaps_id. split; [done|]. rewrite E. split; [done|].
    constructor.
  - destruct (heaps h) as [|r t] eqn:E; [done|].
    rewrite (Top_cons h r t E), res_bind_Done.
    destruct (Pop_spec h r t E) as (s' & -> & Hperm & Hord).
    rewrite res_bind_Done.
    destruct (IH (with_heaps h s')) as (out & -> & Hout & Hsorted); simpl; auto.
    { rewrite E in Hord. auto. }
    { apply Permutation_length in Hperm. rewrite E in Hperm. simpl in *. lia. }
    exists (r :: out). split; [done|]. split.
    + rewrite Hout. simpl. by rewrite Hperm, E.
    + constructor; [done|]. apply Forall_forall. intros e He.
      apply (root_minimal (lessFunc h) (r :: t) r); [done|done|].
      rewrite <- E, <- Hperm. apply list_elem_of_In. right.
      rewrite Hout in He. by apply list_elem_of_In.
Qed.

(** Distinct elements in non-decreasing order under a strict total
    order are in increasing order. *)
Lemma nondecreasing_NoDup `{OrderedLaws T} (l : list T) :
  nondecreasing (fun a b : T => lt_op a b) l -> NoDup l ->
  increasing (fun a b : T => lt_op a b) l.
Proof.
  induction 1 as [|a l Hl IH Ha]; intros Hnd; [constructor|].
  apply NoDup_cons in Hnd as [Hnotin Hnd].
  constructor; [by apply IH|].
  rewrite Forall_forall in Ha |- *. intros b Hb.
  destruct (lt_trichotomy a b) as [E|[->|E]]; [done|done|].
  specialize (Ha b Hb). simpl in Ha. congruence.
Qed.

(** [up] returns the same heap with any larger fuel. *)
Lemma up_more_fuel fuel fuel' h index h' :
  (fuel <= fuel')%nat -> up fuel h index = Done h' -> up fuel' h index = Done h'.
Proof.
  revert fuel' h index. induction fuel as [|fuel IH]; intros fuel' h index Hle;
    [done|].
  destruct fuel' as [|fuel']; [lia|]. simpl.
  destruct (index <=? 0); [done|].
  destruct (precedes h index ((index - 1) ÷ 2)) as [[]| |]; simpl; try done.
  destruct (swap h index ((index - 1) ÷ 2)); simpl; try done.
  apply IH. lia.
Qed.
End CallFacts.

(** * The properties of the heap *)

Section Reachable.
Context {T : Type}.
Implicit Types (h : Heap T) (ops : list (op T)) (less : T -> T -> bool).

Lemma NewAny_fresh less h0 :
  NewAny (Some less) = (Some h0, None) -> heaps h0 = [] /\ lessFunc h0 = less.
Proof. intros [= <-]. done. Qed.

(** The calls made on a fresh heap all return, and leave a storage with
    the heap property under the comparator given at construction. *)
Lemma fresh_run less `{!StrictWeakOrder less} h0 ops :
  NewAny (Some less) = (Some h0, None) ->
  exists h', run ops h0 = Done h' /\ lessFunc h' = less /\
    heap_property less (heaps h').
Proof.
  intros Hnew. apply NewAny_fresh in Hnew as [Hnil Hless].
  destruct (run_spec ops h0) as (s' & Hrun & Hord).
  exists (with_heaps h0 s'). split; [done|]. split; [done|]. simpl.
  rewrite <- Hless. apply Hord.
  - by rewrite Hless.
  - rewrite Hnil. apply heap_property_nil.
Qed.

Lemma run_pushes (l : list T) h :
  exists s', run (map OpPush l) h = Done (with_heaps h s') /\
    s' ≡ₚ l ++ heaps h.
Proof.
  revert h. induction l as [|x l IH]; intros h; simpl.
  - exists (heaps h). by rewrite with_heaps_id.
  - destruct (Push_spec h x) as (s1 & -> & Hperm & _). rewrite res_bind_Done.
    destruct (IH (with_heaps h s1)) as (s' & -> & Hperm').
    exists s'. split; [done|]. rewrite Hperm'. simpl. rewrite Hperm.
    by rewrite Permutation_middle.
Qed.
End Reachable.

Section Claims.
Context {T : Type}.
Implicit Types (h : Heap T) (ops : list (op T)) (less : T -> T -> bool).

(** C1: after every sequence of [Push] and [Pop] calls on a freshly
    constructed heap, whose comparator is a valid ordering, all the
    calls have returned and the storage has the heap property: the
    element at a child index [2i+1] or [2i+2] within bounds never
    strictly precedes the element at [i]. *)
Theorem heap_property_after_calls less `{!StrictWeakOrder less} h0 ops :
  NewAny (Some less) = (Some h0, None) ->
  exists h', run ops h0 = Done h' /\ lessFunc h' = less /\
    heap_property less (heaps h').
Proof.
  intros Hnew. apply NewAny_fresh in Hnew as [Hnil Hless].
  destruct (run_spec ops h0) as (s' & Hrun & Hord).
  exists (with_heaps h0 s'). split; [done|]. split; [done|]. simpl.
  rewrite <- Hless. apply Hord.
  - by rewrite Hless.
  - rewrite Hnil. apply heap_property_nil.
Qed.

(** C3: on a heap reached by [Push] and [Pop] calls from a freshly
    constructed one, whose comparator is a valid ordering, and whose
    storage is not empty, [Top] returns an element of the storage that
    no element of the storage strictly precedes. *)
Theorem top_is_minimal less `{!StrictWeakOrder less} h0 ops h :
  NewAny (Some less) = (Some h0, None) ->
  run ops h0 = Done h ->
  Empty h = false ->
  exists x, Top h = Done x /\ x ∈ heaps h /\ minimal_in less x (heaps h).
Proof.
  intros Hnew Hrun Hne.
  destruct (fresh_run less h0 ops Hnew) as (h' & Hrun' & Hless & Hs).
  rewrite Hrun in Hrun'. injection Hrun' as <-.
  destruct (heaps h) as [|r t] eqn:E.
  { apply Empty_nil in E. congruence. }
  exists r. split; [by apply (Top_cons h r t)|]. split; [by left|].
  by apply root_minimal.
Qed.

(** C4: on every heap of size 0, [Top] panics with the message of the
    empty heap, and so returns no value. *)
Theorem top_of_empty_panics h :
  Size h = 0 -> Top h = Panic empty_top /\ forall x, Top h <> Done x.
Proof.
  intros Hsize. apply Empty_Size in Hsize. unfold Top. rewrite Hsize. done.
Qed.

(** C5: any number of [Pop] calls on a heap of size 0 return, and leave
    the heap as it was: the storage unchanged and the size 0. *)
Theorem pop_of_empty_is_noop h n :
  Size h = 0 ->
  exists h', pops n h = Done h' /\ heaps h' = heaps h /\ Size h' = 0.
Proof.
  intros Hsize. exists h. split; [|done].
  apply pops_nil. by apply Empty_nil, Empty_Size.
Qed.

(** C6: after any sequence of calls on a freshly constructed heap, the
    size is the number of [Push] calls less the number of [Pop] calls
    that found the storage not empty. *)
Theorem size_consistency less h0 ops :
  NewAny (Some less) = (Some h0, None) ->
  exists h' q, run ops h0 = Done h' /\ effective_pops ops h0 = Done q /\
    Size h' = Z.of_nat (push_calls ops) - Z.of_nat q.
Proof.
  intros Hnew. apply NewAny_fresh in Hnew as [Hnil _].
  destruct (run_size ops h0) as (h' & q & Hrun & Hq & Hsize).
  exists h', q. split; [done|]. split; [done|].
  rewrite Hsize. unfold Size, len. rewrite Hnil. simpl. lia.
Qed.

(** C7: [NewAny] on a nil comparator returns an error and a nil heap;
    on any other comparator it returns no error and an empty heap that
    holds the comparator. *)
Theorem NewAny_validation :
  (exists e : error, @NewAny T None = (None, Some e)) /\
  (forall less, exists h,
     NewAny (Some less) = (Some h, None) /\ lessFunc h = less /\ heaps h = []).
Proof.
  split.
  - by exists less_required.
  - intros less. by eexists.
Qed.

(** C10: [Push] returns and leaves the stored elements of before with
    one more occurrence of the pushed element; [Pop] on a storage that
    is not empty returns and leaves the stored elements of before less
    one occurrence of the element [Top] returned. *)
Theorem stored_elements h :
  (forall x, exists h', Push h x = Done h' /\ heaps h' ≡ₚ x :: heaps h) /\
  (Empty h = false ->
   exists r h', Top h = Done r /\ Pop h = Done h' /\ r :: heaps h' ≡ₚ heaps h).
Proof.
  split.
  - intros x. destruct (Push_spec h x) as (s' & Hpush & Hperm & _).
    by exists (with_heaps h s').
  - intros Hne. destruct (heaps h) as [|r t] eqn:E.
    { apply Empty_nil in E. congruence. }
    destruct (Pop_spec h r t E) as (s' & Hpop & Hperm & _).
    exists r, (with_heaps h s'). split; [by apply (Top_cons h r t)|].
    split; [done|]. by rewrite <- E.
Qed.

(** C8: the swap target of [down] from [index] is chosen by testing the
    left child, when in bounds, against the element at [index], and
    then the right child, when in bounds, against the element chosen
    so far, not against the element at [index].  When both children
    strictly precede the parent, the right child is chosen if it
    strictly precedes the left child, and the left child otherwise. *)
Theorem down_choice h index x :
  at_ (heaps h) index = Done x ->
  (forall fuel,
     down (S fuel) h index =
     smallest ← pick h index;
     if smallest =? index then Done h
     else h' ← swap h index smallest; down fuel h' smallest) /\
  (forall a b,
     at_ (heaps h) (2 * index + 1) = Done a ->
     at_ (heaps h) (2 * index + 2) = Done b ->
     pick h index =
       Done (if lessFunc h a x
             then if lessFunc h b a then 2 * index + 2 else 2 * index + 1
             else if lessFunc h b x then 2 * index + 2 else index) /\
     (lessFunc h a x = true -> lessFunc h b x = true ->
      lessFunc h b a = true -> pick h index = Done (2 * index + 2)) /\
     (lessFunc h a x = true -> lessFunc h b x = true ->
      lessFunc h b a = false -> pick h index = Done (2 * index + 1))) /\
  (forall a,
     at_ (heaps h) (2 * index + 1) = Done a -> len (heaps h) <= 2 * index + 2 ->
     pick h index = Done (if lessFunc h a x then 2 * index + 1 else index)) /\
  (len (heaps h) <= 2 * index + 1 -> pick h index = Done index).
Proof.
  intros Hx. split; [done|].
  assert (forall a b,
    at_ (heaps h) (2 * index + 1) = Done a ->
    at_ (heaps h) (2 * index + 2) = Done b ->
    pick h index =
      Done (if lessFunc h a x
            then if lessFunc h b a then 2 * index + 2 else 2 * index + 1
            else if lessFunc h b x then 2 * index + 2 else index)) as Hboth.
  { intros a b Ha Hb. unfold pick, precedes.
    pose proof (at_bounds _ _ _ Ha). pose proof (at_bounds _ _ _ Hb).
    replace (2 * index + 1 <? len (heaps h)) with true by (symmetry; apply Z.ltb_lt; lia).
    replace (2 * index + 2 <? len (heaps h)) with true by (symmetry; apply Z.ltb_lt; lia).
    rewrite Ha, Hx. simpl. rewrite Hb.
    destruct (lessFunc h a x); simpl; rewrite ?Ha, ?Hx; simpl;
      by destruct (lessFunc h b _). }
  split; [|split].
  - intros a b Ha Hb. split; [by apply Hboth|].
    split; intros Hax Hbx Hba; rewrite (Hboth a b Ha Hb), Hax, Hba; done.
  - intros a Ha Hr. unfold pick, precedes.
    pose proof (at_bounds _ _ _ Ha).
    replace (2 * index + 1 <? len (heaps h)) with true by (symmetry; apply Z.ltb_lt; lia).
    replace (2 * index + 2 <? len (heaps h)) with false by (symmetry; apply Z.ltb_ge; lia).
    rewrite Ha, Hx. simpl. by destruct (lessFunc h a x).
  - intros Hl. unfold pick.
    replace (2 * index + 1 <? len (heaps h)) with false by (symmetry; apply Z.ltb_ge; lia).
    replace (2 * index + 2 <? len (heaps h)) with false
      by (symmetry; apply Z.ltb_ge; lia).
    done.
Qed.

(** C9: [up] from a valid index terminates: it returns one and the same
    heap with every fuel above the index.  A step from an index above 0
    moves to the parent [(index-1)/2], which is at least 0 and strictly
    below the index; the recursion stops at index 0, and where the
    element does not strictly precede its parent. *)
Theorem up_terminates h index :
  0 <= index < len (heaps h) ->
  (exists h', forall fuel, (Z.to_nat index < fuel)%nat -> up fuel h index = Done h') /\
  (0 < index -> 0 <= (index - 1) ÷ 2 < index) /\
  (forall fuel, index = 0 -> up (S fuel) h index = Done h) /\
  (forall fuel x y,
     0 < index ->
     at_ (heaps h) index = Done x -> at_ (heaps h) ((index - 1) ÷ 2) = Done y ->
     lessFunc h x y = false ->
     up (S fuel) h index = Done h) /\
  (forall fuel x y,
     0 < index ->
     at_ (heaps h) index = Done x -> at_ (heaps h) ((index - 1) ÷ 2) = Done y ->
     lessFunc h x y = true ->
     up (S fuel) h index =
     h' ← swap h index ((index - 1) ÷ 2); up fuel h' ((index - 1) ÷ 2)).
Proof.
  intros Hi. split; [|split; [|split; [|split]]].
  - destruct (up_spec (S (Z.to_nat index)) h (Z.to_nat index))
      as (s' & Hup & _); [unfold len in Hi; lia|lia|].
    rewrite Z2Nat.id in Hup by lia.
    exists (with_heaps h s'). intros fuel Hfuel.
    apply (up_more_fuel (S (Z.to_nat index))); [lia|done].
  - intros Hpos. rewrite Z.quot_div_nonneg by lia.
    split; [apply Z.div_pos; lia|]. apply Z.div_lt_upper_bound; lia.
  - intros fuel ->. done.
  - intros fuel x y Hpos Hx Hy Hxy. simpl.
    replace (index <=? 0) with false by (symmetry; apply Z.leb_gt; lia).
    unfold precedes. rewrite Hx, Hy. simpl. by rewrite Hxy.
  - intros fuel x y Hpos Hx Hy Hxy. simpl.
    replace (index <=? 0) with false by (symmetry; apply Z.leb_gt; lia).
    unfold precedes. rewrite Hx, Hy. simpl. by rewrite Hxy.
Qed.
End Claims.

Section OrderedClaims.
Context {T : Type} `{OrderedLaws T}.

(** C2: for every list of distinct values of an ordered type, pushing
    them all on a heap made by [New] and then, as many times as there
    are values, reading [Top] and calling [Pop], yields the values of
    the list in non-decreasing order under [<] (and, the values being
    distinct, in increasing order), and leaves the heap empty. *)
Theorem sorted_extraction (l : list T) :
  NoDup l ->
  exists h0 h1 out h2,
    New = Some h0 /\
    run (map OpPush l) h0 = Done h1 /\
    drain (length l) h1 = Done (out, h2) /\
    out ≡ₚ l /\
    nondecreasing (fun a b : T => lt_op a b) out /\
    increasing (fun a b : T => lt_op a b) out /\
    Empty h2 = true.
Proof.
  intros Hnd.
  set (less := fun a b : T => lt_op a b).
  set (h0 := {| heaps := []; lessFunc := less |}).
  destruct (run_pushes l h0) as (s1 & Hrun & Hperm). simpl in Hperm.
  rewrite app_nil_r in Hperm.
  destruct (run_spec (map OpPush l) h0) as (s1' & Hrun' & Hord).
  rewrite Hrun in Hrun'. injection Hrun' as <-.
  destruct (drain_spec (length l) (with_heaps h0 s1)) as (out & Hdrain & Hout & Hsorted).
  { simpl. apply _. }
  { apply Hord; [simpl; apply _|apply heap_property_nil]. }
  { simpl. by rewrite Hperm. }
  simpl in Hout, Hsorted.
  exists h0, (with_heaps h0 s1), out, (with_heaps h0 []).
  split; [done|]. split; [done|]. split; [done|].
  split; [by rewrite Hout|]. split; [done|]. split; [|done].
  apply nondecreasing_NoDup; [done|]. by rewrite Hout, Hperm.
Qed.
End OrderedClaims.

(** * The properties at concrete heaps *)

Section Instances.
Lemma Z_ltb_StrictWeakOrder : StrictWeakOrder Z.ltb.
Proof. exact (OrderedLaws_StrictWeakOrder (T := Z)). Qed.

Lemma heap_property_after_calls_witness :
  let ops := [OpPush 3; OpPush 1; OpPop; OpPush 2; OpPush 0] in
  NewAny (Some Z.ltb) = (Some (heap_of []), None) /\
  exists h', run ops (heap_of []) = Done h' /\ lessFunc h' = Z.ltb /\
    heap_property Z.ltb (heaps h').
Proof.
  split; [reflexivity|].
  apply (@heap_property_after_calls Z Z.ltb Z_ltb_StrictWeakOrder).
  reflexivity.
Defined.

Lemma sorted_extraction_witness :
  NoDup [3; 1; 2] /\
  exists h0 h1 out h2,
    New = Some h0 /\
    run (map OpPush [3; 1; 2]) h0 = Done h1 /\
    drain 3 h1 = Done (out, h2) /\
    out ≡ₚ [3; 1; 2] /\
    nondecreasing Z.ltb out /\ increasing Z.ltb out /\ Empty h2 = true.
Proof.
  assert (NoDup [3; 1; 2]) as Hnd.
  { repeat constructor; rewrite ?list_elem_of_In; simpl; lia. }
  split; [exact Hnd|]. apply (sorted_extraction [3; 1; 2] Hnd).
Defined.

Lemma top_is_minimal_witness :
  let ops := [OpPush 3; OpPush 1; OpPush 2] in
  (NewAny (Some Z.ltb) = (Some (heap_of []), None) /\
   run ops (heap_of []) = Done (heap_of [1; 3; 2]) /\
   Empty (heap_of [1; 3; 2]) = false) /\
  exists x, Top (heap_of [1; 3; 2]) = Done x /\ x ∈ [1; 3; 2] /\
    minimal_in Z.ltb x [1; 3; 2].
Proof.
  split; [repeat split; reflexivity|].
  apply (@top_is_minimal Z Z.ltb Z_ltb_StrictWeakOrder (heap_of [])
           [OpPush 3; OpPush 1; OpPush 2] (heap_of [1; 3; 2]));
    reflexivity.
Defined.

Lemma top_of_empty_panics_witness :
  Size (heap_of []) = 0 /\
  Top (heap_of []) = Panic empty_top /\ forall x, Top (heap_of []) <> Done x.
Proof. split; [reflexivity|]. apply top_of_empty_panics. reflexivity. Defined.

Lemma pop_of_empty_is_noop_witness :
  Size (heap_of []) = 0 /\
  exists h', pops 3 (heap_of []) = Done h' /\ heaps h' = [] /\ Size h' = 0.
Proof.
  split; [reflexivity|]. apply (pop_of_empty_is_noop (heap_of []) 3). reflexivity.
Defined.

Lemma size_consistency_witness :
  let ops := [OpPop; OpPush 1; OpPush 2; OpPop; OpPop; OpPop; OpPush 3] in
  NewAny (Some Z.ltb) = (Some (heap_of []), None) /\
  exists h' q, run ops (heap_of []) = Done h' /\
    effective_pops ops (heap_of []) = Done q /\
    Size h' = Z.of_nat (push_calls ops) - Z.of_nat q.
Proof.
  split; [reflexivity|]. apply (size_consistency Z.ltb). reflexivity.
Defined.

Lemma down_choice_witness :
  at_ [5; 3; 1] 0 = Done 5 /\
  pick (heap_of [5; 3; 1]) 0 = Done 2 /\
  pick (heap_of [5; 1; 3]) 0 = Done 1.
Proof.
  split; [reflexivity|]. split.
  - destruct (down_choice (heap_of [5; 3; 1]) 0 5 eq_refl) as (_ & Hboth & _).
    destruct (Hboth 3 1 eq_refl eq_refl) as (_ & Hright & _).
    exact (Hright eq_refl eq_refl eq_refl).
  - destruct (down_choice (heap_of [5; 1; 3]) 0 5 eq_refl) as (_ & Hboth & _).
    destruct (Hboth 1 3 eq_refl eq_refl) as (_ & _ & Hleft).
    exact (Hleft eq_refl eq_refl eq_refl).
Defined.

Lemma up_terminates_witness :
  0 <= 2 < len [5; 3; 1] /\
  exists h', forall fuel, (Z.to_nat 2 < fuel)%nat ->
    up fuel (heap_of [5; 3; 1]) 2 = Done h'.
Proof.
  assert (0 <= 2 < len [5; 3; 1]) as Hi by (unfold len; simpl; lia).
  split; [exact Hi|]. apply (up_terminates (heap_of [5; 3; 1]) 2 Hi).
Defined.

Lemma stored_elements_witness :
  Empty (heap_of [1; 3; 2]) = false /\
  exists r h', Top (heap_of [1; 3; 2]) = Done r /\
    Pop (heap_of [1; 3; 2]) = Done h' /\ r :: heaps h' ≡ₚ [1; 3; 2].
Proof.
  split; [reflexivity|]. apply (stored_elements (heap_of [1; 3; 2])). reflexivity.
Defined.

(** A strict partial order is not enough for the heap property: under
    [grade_less], which is irreflexive and transitive but leaves
    [Aside] incomparable to [Low] and [High], five pushes on a fresh
    heap leave [Low] below [High]. *)
Remark strict_partial_order_not_enough :
  (forall a, grade_less a a = false) /\
  (forall a b c, grade_less a b = true -> grade_less b c = true ->
                 grade_less a c = true) /\
  exists h',
    run (map OpPush [High; Aside; Aside; Low; Bottom])
        {| heaps := []; lessFunc := grade_less |} = Done h' /\
    heaps h' = [Bottom; High; Aside; Low; Aside] /\
    ~ heap_property grade_less (heaps h').
Proof.
  split; [by intros []|]. split; [by intros [] [] []|].
  eexists. split; [reflexivity|]. split; [reflexivity|].
  intros Hs. by specialize (Hs 1%nat 3%nat High Low (or_introl eq_refl) eq_refl eq_refl).
Qed.

(** The heap of the greatest first: with the comparator [a > b], after
    pushing 3, 1, 4, 1, 5 the top is 5, and after one [Pop] it is 4. *)
Example greatest_first :
  (h ← run (map OpPush [3; 1; 4; 1; 5]) {| heaps := []; lessFunc := Z.gtb |};
   x ← Top h; h1 ← Pop h; y ← Top h1; mret (x, y)) = Done (5, 4).
Proof. reflexivity. Qed.

(** A round trip: the heap is not empty after the first push, and is
    empty after as many pops as pushes. *)
Example round_trip :
  (h1 ← Push (heap_of []) 7; h ← run (map OpPush [2; 9]) h1;
   h' ← pops 3 h; mret (Empty h1, Empty h')) = Done (false, true).
Proof. reflexivity. Qed.
End Instances.

(** * Further properties of the operations *)

(** ** Pushing and draining *)

Section Draining.
Context {T : Type}.
Implicit Types (h : Heap T) (l s : list T) (ops : list (op T)).

Lemma run_app ops1 ops2 h :
  run (ops1 ++ ops2) h = run ops1 h ≫= run ops2.
Proof.
  revert h. induction ops1 as [|o ops1 IH]; intros h; simpl; [done|].
  destruct (call h o) as [h1| |]; simpl; [apply IH|done..].
Qed.

(** As many [Pop] calls as there are elements, or more, empty the storage. *)
Lemma pops_ge n h :
  (length (heaps h) <= n)%nat -> pops n h = Done (with_heaps h []).
Proof.
  revert h. induction n as [|n IH]; intros h Hn; simpl.
  - destruct (heaps h) eqn:E; [|simpl in Hn; lia].
    by rewrite <- E, with_heaps_id.
  - destruct (call_spec h OpPop) as (s' & Hpop & Hlen & _). simpl in Hpop.
    rewrite Hpop, res_bind_Done. rewrite IH; [done|]. simpl. lia.
Qed.

(** Reading [Top] once more than there are elements panics. *)
Lemma drain_past n m h :
  length (heaps h) = n -> (n < m)%nat -> drain m h = Panic empty_top.
Proof.
  revert m h. induction n as [|n IH]; intros m h Hn Hm;
    (destruct m as [|m]; [lia|]); simpl.
  - unfold Top. destruct (heaps h) eqn:E; [|done].
    apply Empty_nil in E. by rewrite E.
  - destruct (heaps h) as [|r t] eqn:E; [done|].
    rewrite (Top_cons h r t E), res_bind_Done.
    destruct (Pop_spec h r t E) as (s' & -> & Hperm & _).
    rewrite res_bind_Done. rewrite (IH m); [done| |lia]. simpl.
    apply Permutation_length in Hperm. rewrite E in Hperm. simpl in *. lia.
Qed.

(** X1: heap sort with any comparator.  On the heap [NewAny] returns for
    a strict weak order, pushing the elements of any list, duplicates
    included, and then reading [Top] and calling [Pop] as many times as
    there are elements yields a permutation of the list in non-decreasing
    order under the comparator and leaves the heap empty; one more round
    panics in [Top]. *)
Theorem heap_sort less `{!StrictWeakOrder less} h0 l :
  NewAny (Some less) = (Some h0, None) ->
  exists h1 out h2,
    run (map OpPush l) h0 = Done h1 /\
    drain (length l) h1 = Done (out, h2) /\
    out ≡ₚ l /\ nondecreasing less out /\ Empty h2 = true /\
    drain (S (length l)) h1 = Panic empty_top.
Proof.
  intros [Hnil Hless]%NewAny_fresh.
  destruct (run_pushes l h0) as (s1 & Hrun & Hperm).
  rewrite Hnil, app_nil_r in Hperm.
  destruct (run_spec (map OpPush l) h0) as (s1' & Hrun' & Hord).
  rewrite Hrun in Hrun'. injection Hrun' as <-.
  rewrite Hless, Hnil in Hord.
  destruct (drain_spec (length l) (with_heaps h0 s1))
    as (out & Hdrain & Hout & Hsorted).
  { simpl. by rewrite Hless. }
  { simpl. rewrite Hless. apply Hord; [done|apply heap_property_nil]. }
  { simpl. by rewrite Hperm. }
  simpl in Hout, Hsorted. rewrite Hless in Hsorted.
  exists (with_heaps h0 s1), out, (with_heaps h0 []).
  split; [done|]. split; [done|]. split; [by rewrite Hout|].
  split; [done|]. split; [done|].
  apply (drain_past (length l)); [|lia]. simpl. by rewrite Hperm.
Qed.

(** X2: a round trip, whatever the comparator.  On a fresh heap the
    storage is not empty after the first push; after the pushes the size
    is the number of elements pushed, and as many [Pop] calls as there
    were pushes, or more, leave the heap empty. *)
Theorem push_pop_round_trip less h0 x l :
  NewAny (Some less) = (Some h0, None) ->
  exists ha h1 h2,
    Push h0 x = Done ha /\ Empty ha = false /\
    run (map OpPush l) ha = Done h1 /\ Size h1 = len (x :: l) /\
    (forall k, pops (length (x :: l) + k) h1 = Done h2) /\
    Empty h2 = true.
Proof.
  intros [Hnil _]%NewAny_fresh.
  destruct (Push_spec h0 x) as (sa & Hpush & Hperma & _).
  rewrite Hnil in Hperma. apply Permutation_singleton_r in Hperma as ->.
  destruct (run_pushes l (with_heaps h0 [x])) as (s1 & Hrun & Hperm).
  simpl in Hperm.
  assert (length s1 = length (x :: l)) as Hlen.
  { rewrite Hperm, length_app. simpl. lia. }
  exists (with_heaps h0 [x]), (with_heaps h0 s1), (with_heaps h0 []).
  split; [done|]. split; [done|]. split; [done|].
  split; [by unfold Size, len; simpl; rewrite Hlen|]. split; [|done].
  intros k. rewrite pops_ge; [done|]. simpl in *. lia.
Qed.

(** X3: pushing in order never swaps.  When the elements of a list are
    in non-decreasing order under the comparator, whatever the comparator
    is, pushing them one after the other on a fresh heap leaves the list
    itself as the storage. *)
Theorem push_sorted_in_place less h0 l :
  NewAny (Some less) = (Some h0, None) ->
  nondecreasing less l ->
  run (map OpPush l) h0 = Done (with_heaps h0 l).
Proof.
  intros [Hnil Hless]%NewAny_fresh.
  induction l as [|x l IH] using rev_ind; intros Hsorted.
  - simpl. by rewrite <- Hnil, with_heaps_id.
  - apply StronglySorted_app in Hsorted as (Hlx & Hl & _).
    rewrite map_app, run_app, (IH Hl), res_bind_Done. simpl.
    unfold Push. simpl.
    replace (len (l ++ [x]) - 1) with (Z.of_nat (length l))
      by (unfold len; rewrite length_app; simpl; lia).
    rewrite length_app. simpl. replace (length l + 1)%nat with (S (length l)) by lia.
    simpl. destruct l as [|r t] using rev_ind; [done|clear IHt].
    set (s := t ++ [r]) in *. assert (0 < length s)%nat as Hpos.
    { unfold s. rewrite length_app. simpl. lia. }
    replace (Z.of_nat (length s) <=? 0) with false by (symmetry; apply Z.leb_gt; lia).
    rewrite parent_quot by done.
    pose proof (parent_lt _ Hpos) as Hp.
    destruct (lookup_lt_is_Some_2 s (parent (length s)) Hp) as [y Hy].
    rewrite (precedes_nat _ (length s) (parent (length s)) x y); simpl.
    + rewrite Hless. rewrite (Hlx y x); [done| |by left].
      by apply list_elem_of_lookup_2 in Hy.
    + by rewrite lookup_app_r, Nat.sub_diag.
    + by apply lookup_app_l_Some.
Qed.
End Draining.

(** ** The top after a push *)

Section TopAfterPush.
Context {T : Type}.
Implicit Types (h : Heap T) (s : list T) (n i : nat).

(** On the way up from [n], no element below [n] precedes the root. *)
Lemma up_inv_below less `{!StrictWeakOrder less} s n i e r :
  up_inv less s n -> (i < n)%nat ->
  s !! i = Some e -> s !! 0%nat = Some r -> less e r = false.
Proof.
  intros [H1 _] Hi He Hr. revert e Hi He.
  induction (lt_wf i) as [i _ IH]. intros e Hi He.
  destruct (decide (i = 0%nat)) as [->|Hne].
  - rewrite Hr in He. injection He as <-. apply less_irrefl.
  - assert (0 < i)%nat as Hpos by lia.
    pose proof (parent_lt i Hpos) as Hp.
    destruct (lookup_lt_is_Some_2 s (parent i)) as [y Hy].
    { apply lookup_lt_Some in He. lia. }
    apply (less_incomp e y r).
    + apply (H1 i); [done|lia|done..].
    + apply (IH (parent i)); [done|lia|done].
  Qed.

(** The root [up] leaves: the element that started at [n] when it
    precedes the old root, and the old root otherwise. *)
Lemma up_root fuel h n r x :
  StrictWeakOrder (lessFunc h) -> up_inv (lessFunc h) (heaps h) n ->
  (n < fuel)%nat ->
  heaps h !! 0%nat = Some r -> heaps h !! n = Some x ->
  exists s', up fuel h (Z.of_nat n) = Done (with_heaps h s') /\
    s' !! 0%nat = Some (if lessFunc h x r then x else r).
Proof.
  intros Hless. revert h n r Hless.
  induction fuel as [|fuel IH]; intros h n r Hless Hinv Hf Hr Hx; [lia|].
  simpl. destruct (decide (n = 0%nat)) as [->|Hne].
  - exists (heaps h). rewrite with_heaps_id. split; [done|].
    rewrite Hr in Hx. injection Hx as <-. by rewrite less_irrefl.
  - assert (0 < n)%nat as Hpos by lia.
    pose proof (parent_lt n Hpos) as Hp.
    pose proof (lookup_lt_Some _ _ _ Hx) as Hn.
    replace (Z.of_nat n <=? 0) with false by (symmetry; apply Z.leb_gt; lia).
    rewrite parent_quot by done.
    destruct (lookup_lt_is_Some_2 (heaps h) (parent n)) as [y Hy]; [lia|].
    rewrite (precedes_nat h _ _ _ _ Hx Hy). simpl.
    destruct (lessFunc h x y) eqn:Hxy.
    + rewrite swap_nat by lia. simpl.
      set (s1 := exchanged (heaps h) n (parent n)).
      assert (s1 !! parent n = Some x) as Hx1.
      { unfold s1. rewrite exchanged_lookup by lia. by rewrite decide_True. }
      destruct (decide (parent n = 0%nat)) as [E0|N0].
      * destruct (IH (with_heaps h s1) (parent n) x) as (s' & Hup & Hroot);
          simpl; auto; [by apply (up_inv_step _ _ _ x y)|lia|by rewrite <- E0|].
        exists s'. split; [done|]. rewrite Hroot, less_irrefl.
        rewrite E0, Hr in Hy. injection Hy as <-. by rewrite Hxy.
      * destruct (IH (with_heaps h s1) (parent n) r) as (s' & Hup & Hroot);
          simpl; auto; [by apply (up_inv_step _ _ _ x y)|lia| |].
        { unfold s1. rewrite exchanged_lookup by lia.
          by rewrite !decide_False by lia. }
        by exists s'.
    + exists (heaps h). rewrite with_heaps_id. split; [done|].
      rewrite Hr. f_equal.
      assert (lessFunc h x r = false) as ->; [|done].
      apply (less_incomp x y r); [done|].
      by apply (up_inv_below (lessFunc h) (heaps h) n (parent n)).
Qed.

(** X4: the top after a push.  On a heap whose comparator is a strict
    weak order and whose storage has the heap property, [Push] of [x]
    makes [x] the top when the storage was empty or [x] strictly precedes
    the old top, and keeps the very element that was the top otherwise. *)
Theorem top_after_push h x :
  StrictWeakOrder (lessFunc h) -> heap_property (lessFunc h) (heaps h) ->
  exists h', Push h x = Done h' /\
    (Empty h = true -> Top h' = Done x) /\
    (forall r, Top h = Done r ->
       Top h' = Done (if lessFunc h x r then x else r)).
Proof.
  intros Hless Hs. unfold Push. simpl.
  replace (len (heaps h ++ [x]) - 1) with (Z.of_nat (length (heaps h)))
    by (unfold len; rewrite length_app; simpl; lia).
  set (h1 := with_heaps h (heaps h ++ [x])).
  assert (heaps h1 !! length (heaps h) = Some x) as Hx.
  { simpl. by rewrite lookup_app_r, Nat.sub_diag. }
  assert (exists r, heaps h1 !! 0%nat = Some r /\
            match heaps h with [] => r = x | r0 :: _ => r = r0 end)
    as (r & Hr & Hcase).
  { simpl. destruct (heaps h) as [|r0 t]; simpl; eauto. }
  destruct (up_root (length (heaps h ++ [x])) h1 (length (heaps h)) r x)
    as (s' & Hup & Hroot); auto.
  { simpl. by apply up_inv_snoc. }
  { rewrite length_app. simpl. lia. }
  exists (with_heaps h s'). split; [done|].
  assert (Top (with_heaps h s') = Done (if lessFunc h x r then x else r)) as Htop.
  { destruct s' as [|t0 s'']; [done|]. simpl in Hroot. injection Hroot as ->.
    by apply (Top_cons _ _ s''). }
  split.
  - intros He. apply Empty_nil in He. rewrite He in Hcase. subst r.
    by rewrite Htop, less_irrefl.
  - intros r0 Hr0. destruct (heaps h) as [|r1 t] eqn:E.
    + apply Empty_nil in E. unfold Top in Hr0. by rewrite E in Hr0.
    + rewrite (Top_cons h r1 t E) in Hr0. injection Hr0 as <-. by subst r.
Qed.
End TopAfterPush.

(** ** The depth of the recursion *)

Section Depth.
Context {T : Type}.
Implicit Types (h : Heap T) (s : list T) (n m : nat).

(** A node is one level below its parent. *)
Lemma log2_parent n :
  (0 < n)%nat -> Nat.log2 (n + 1) = S (Nat.log2 (parent n + 1)).
Proof.
  intros Hn.
  destruct (proj1 (parent_child (parent n) n Hn) eq_refl) as [E|E].
  - replace (n + 1)%nat with (2 * (parent n + 1))%nat by lia.
    apply Nat.log2_double. lia.
  - replace (n + 1)%nat with (2 * (parent n + 1) + 1)%nat by lia.
    apply Nat.log2_succ_double. lia.
Qed.

Lemma up_log fuel h n :
  (n < length (heaps h))%nat -> (Nat.log2 (n + 1) < fuel)%nat ->
  exists s', up fuel h (Z.of_nat n) = Done (with_heaps h s').
Proof.
  revert h n. induction fuel as [|fuel IH]; intros h n Hn Hf; [lia|].
  simpl. destruct (decide (n = 0%nat)) as [->|Hne].
  - exists (heaps h). by rewrite with_heaps_id.
  - assert (0 < n)%nat as Hpos by lia.
    pose proof (parent_lt n Hpos) as Hp.
    replace (Z.of_nat n <=? 0) with false by (symmetry; apply Z.leb_gt; lia).
    rewrite parent_quot by done.
    destruct (lookup_lt_is_Some_2 (heaps h) n Hn) as [x Ex].
    destruct (lookup_lt_is_Some_2 (heaps h) (parent n)) as [y Ey]; [lia|].
    rewrite (precedes_nat h _ _ _ _ Ex Ey). simpl.
    destruct (lessFunc h x y).
    + rewrite swap_nat by lia. simpl.
      destruct (IH (with_heaps h (exchanged (heaps h) n (parent n))) (parent n))
        as (s' & Hup).
      { simpl. rewrite exchanged_length. lia. }
      { rewrite (log2_parent n Hpos) in Hf. lia. }
      by exists s'.
    + exists (heaps h). by rewrite with_heaps_id.
Qed.

Lemma down_log fuel h n :
  (n < length (heaps h))%nat ->
  (Nat.log2 (length (heaps h)) - Nat.log2 (n + 1) < fuel)%nat ->
  exists s', down fuel h (Z.of_nat n) = Done (with_heaps h s').
Proof.
  revert h n. induction fuel as [|fuel IH]; intros h n Hn Hf; [lia|].
  simpl. rewrite pick_nat by done. simpl.
  pose proof (smallest_of_range (lessFunc h) (heaps h) n Hn) as [Hm Hcase].
  remember (smallest_of (lessFunc h) (heaps h) n) as m eqn:Em.
  destruct (decide (m = n)) as [E|NE].
  - rewrite E, Z.eqb_refl. exists (heaps h). by rewrite with_heaps_id.
  - replace (Z.of_nat m =? Z.of_nat n) with false by (symmetry; apply Z.eqb_neq; lia).
    rewrite swap_nat by done. simpl.
    assert (0 < m)%nat as Hpos by lia.
    assert (parent m = n) as Hp by (apply parent_child; [done|lia]).
    pose proof (log2_parent m Hpos) as Hlog. rewrite Hp in Hlog.
    assert (Nat.log2 (m + 1) <= Nat.log2 (length (heaps h)))%nat as Hle
      by (apply Nat.log2_le_mono; lia).
    destruct (IH (with_heaps h (exchanged (heaps h) n m)) m) as (s' & Hdown).
    { simpl. by rewrite exchanged_length. }
    { simpl. rewrite exchanged_length. lia. }
    by exists s'.
Qed.

(** [down] returns the same heap with any larger fuel. *)
Lemma down_more_fuel fuel fuel' h index h' :
  (fuel <= fuel')%nat -> down fuel h index = Done h' -> down fuel' h index = Done h'.
Proof.
  revert fuel' h index. induction fuel as [|fuel IH]; intros fuel' h index Hle;
    [done|].
  destruct fuel' as [|fuel']; [lia|]. simpl.
  destruct (pick h index) as [m| |]; simpl; try done.
  destruct (m =? index); [done|].
  destruct (swap h index m); simpl; try done.
  apply IH. lia.
Qed.

(** X5: the depth of [up].  From a valid index, [up] makes at most
    [log2 (index + 1) + 1] calls, whatever the comparator: with any fuel
    above [log2 (index + 1)] it returns one and the same heap, whose
    storage is a permutation of the old one and whose comparator is the
    old one. *)
Theorem up_depth h index :
  0 <= index < len (heaps h) ->
  exists h',
    (forall fuel, (Nat.log2 (Z.to_nat index + 1) < fuel)%nat ->
                  up fuel h index = Done h') /\
    heaps h' ≡ₚ heaps h /\ lessFunc h' = lessFunc h.
Proof.
  intros Hi. unfold len in Hi.
  destruct (up_spec (S (Z.to_nat index)) h (Z.to_nat index))
    as (s' & Hup & Hperm & _); [lia..|].
  exists (with_heaps h s'). split; [|done].
  intros fuel Hfuel.
  destruct (up_log fuel h (Z.to_nat index)) as (s'' & Hup'); [lia|done|].
  rewrite Z2Nat.id in Hup, Hup' by lia. rewrite Hup'. f_equal.
  apply (up_more_fuel _ (fuel + S (Z.to_nat index))) in Hup, Hup'; [|lia..].
  congruence.
Qed.

(** X6: [down] terminates, within the height of the tree.  From a valid
    index, [down] makes at most [log2 (len) - log2 (index + 1) + 1]
    calls, whatever the comparator: with any fuel above
    [log2 (len) - log2 (index + 1)] it returns one and the same heap,
    whose storage is a permutation of the old one and whose comparator
    is the old one. *)
Theorem down_depth h index :
  0 <= index < len (heaps h) ->
  exists h',
    (forall fuel,
       (Nat.log2 (length (heaps h)) - Nat.log2 (Z.to_nat index + 1) < fuel)%nat ->
       down fuel h index = Done h') /\
    heaps h' ≡ₚ heaps h /\ lessFunc h' = lessFunc h.
Proof.
  intros Hi. unfold len in Hi.
  destruct (down_spec (length (heaps h)) h (Z.to_nat index))
    as (s' & Hdown & Hperm & _); [lia..|].
  exists (with_heaps h s'). split; [|done].
  intros fuel Hfuel.
  destruct (down_log fuel h (Z.to_nat index)) as (s'' & Hdown'); [lia|done|].
  rewrite Z2Nat.id in Hdown, Hdown' by lia. rewrite Hdown'. f_equal.
  apply (down_more_fuel _ (fuel + length (heaps h))) in Hdown, Hdown'; [|lia..].
  congruence.
Qed.
End Depth.

(** ** Exchanging two elements *)

Section Swapping.
Context {T : Type}.
Implicit Types (h : Heap T) (s : list T) (n m : nat).

Lemma exchanged_comm s n m :
  (n < length s)%nat -> (m < length s)%nat -> exchanged s n m = exchanged s m n.
Proof.
  intros Hn Hm. apply list_eq. intros k.
  rewrite !exchanged_lookup by done.
  repeat case_decide; subst; done.
Qed.

Lemma exchanged_twice s n m :
  (n < length s)%nat -> (m < length s)%nat ->
  exchanged (exchanged s n m) n m = s.
Proof.
  intros Hn Hm. apply list_eq. intros k.
  rewrite exchanged_lookup by (by rewrite exchanged_length).
  rewrite !exchanged_lookup by done.
  repeat case_decide; subst; done.
Qed.

Lemma at_exchanged s n m (k : Z) :
  (n < length s)%nat -> (m < length s)%nat ->
  at_ (exchanged s n m) k =
  if decide (k = Z.of_nat m) then at_ s (Z.of_nat n)
  else if decide (k = Z.of_nat n) then at_ s (Z.of_nat m)
  else at_ s k.
Proof.
  intros Hn Hm. destruct (decide (0 <= k)) as [Hk|Hk].
  - rewrite <- (Z2Nat.id k Hk) at 1. rewrite at_nat, exchanged_lookup by done.
    repeat case_decide; subst; try lia; rewrite ?at_nat; try done.
    by rewrite <- (Z2Nat.id k Hk) at 2; rewrite at_nat.
  - rewrite !decide_False by lia. by rewrite !at_negative by lia.
Qed.

(** X7: [swap] within bounds.  For two indices within the storage,
    [swap] returns a heap of the same size whose elements at the two
    indices have changed places and whose other elements are untouched;
    the order of the two indices does not matter, and a second [swap] of
    the same indices gives the heap back. *)
Theorem swap_within_bounds h i j :
  0 <= i < len (heaps h) -> 0 <= j < len (heaps h) ->
  exists h',
    swap h i j = Done h' /\ swap h j i = Done h' /\ swap h' i j = Done h /\
    Size h' = Size h /\ lessFunc h' = lessFunc h /\
    at_ (heaps h') i = at_ (heaps h) j /\
    at_ (heaps h') j = at_ (heaps h) i /\
    (forall k, k <> i -> k <> j -> at_ (heaps h') k = at_ (heaps h) k).
Proof.
  intros Hi Hj. unfold len in *.
  assert (exists n, i = Z.of_nat n /\ (n < length (heaps h))%nat)
    as (n & -> & Hn) by (exists (Z.to_nat i); lia).
  assert (exists m, j = Z.of_nat m /\ (m < length (heaps h))%nat)
    as (m & -> & Hm) by (exists (Z.to_nat j); lia).
  exists (with_heaps h (exchanged (heaps h) n m)).
  split; [by apply swap_nat|]. split.
  { rewrite swap_nat by done. by rewrite exchanged_comm. }
  split.
  { rewrite swap_nat by (simpl; by rewrite exchanged_length). simpl.
    rewrite exchanged_twice by done. by destruct h. }
  split; [unfold Size, len; simpl; by rewrite exchanged_length|].
  split; [done|]. simpl.
  split; [|split].
  - rewrite at_exchanged by done. repeat case_decide; congruence.
  - rewrite at_exchanged by done. by rewrite decide_True.
  - intros k Hki Hkj. rewrite at_exchanged by done. by rewrite !decide_False.
Qed.

(** X8: [swap] out of bounds.  When either index is negative or not
    below the length of the storage, [swap] panics with the run-time
    error of the index, and returns no heap. *)
Theorem swap_out_of_bounds h i j :
  ~ (0 <= i < len (heaps h)) \/ ~ (0 <= j < len (heaps h)) ->
  swap h i j = Panic index_out_of_range.
Proof.
  intros Hout. unfold swap.
  assert (forall k, ~ (0 <= k < len (heaps h)) ->
            at_ (heaps h) k = Panic index_out_of_range) as Hat.
  { intros k Hk. destruct (at_ (heaps h) k) as [x|msg|] eqn:E.
    - by apply at_bounds in E.
    - unfold at_ in E. case_bool_decide; [|congruence].
      destruct (heaps h !! Z.to_nat k); congruence.
    - unfold at_ in E. case_bool_decide; [|congruence].
      destruct (heaps h !! Z.to_nat k); congruence. }
  destruct (at_ (heaps h) j) as [a|msg|] eqn:Ej; simpl.
  - destruct Hout as [Hi|Hj].
    + by rewrite (Hat i Hi).
    + rewrite (Hat j Hj) in Ej. congruence.
  - destruct (decide (0 <= j < len (heaps h))) as [Hj|Hj].
    + unfold at_, len in *. rewrite bool_decide_eq_true_2 in Ej by lia.
      destruct (lookup_lt_is_Some_2 (heaps h) (Z.to_nat j)) as [y Hy]; [lia|].
      by rewrite Hy in Ej.
    + rewrite (Hat j Hj) in Ej. congruence.
  - unfold at_ in Ej. case_bool_decide; [|congruence].
    destruct (heaps h !! Z.to_nat j); congruence.
Qed.
End Swapping.

(** ** The helpers on their own *)

Section Helpers.
Context {T : Type}.
Implicit Types (h : Heap T) (s : list T) (n c : nat).

(** X9: a storage in order is left alone.  On a storage with the heap
    property, whatever the comparator, [up] and [down] from any valid
    index return the heap as it is. *)
Theorem sift_keeps_ordered h index fuel :
  heap_property (lessFunc h) (heaps h) ->
  0 <= index < len (heaps h) ->
  up (S fuel) h index = Done h /\ down (S fuel) h index = Done h.
Proof.
  intros Hs Hi. unfold len in Hi.
  assert (exists n, index = Z.of_nat n /\ (n < length (heaps h))%nat)
    as (n & -> & Hn) by (exists (Z.to_nat index); lia).
  destruct (lookup_lt_is_Some_2 (heaps h) n Hn) as [x Ex].
  split.
  - simpl. destruct (decide (n = 0%nat)) as [->|Hne]; [done|].
    assert (0 < n)%nat as Hpos by lia.
    pose proof (parent_lt n Hpos) as Hp.
    replace (Z.of_nat n <=? 0) with false by (symmetry; apply Z.leb_gt; lia).
    rewrite parent_quot by done.
    destruct (lookup_lt_is_Some_2 (heaps h) (parent n)) as [y Ey]; [lia|].
    rewrite (precedes_nat h _ _ _ _ Ex Ey). simpl.
    pose proof (proj1 (heap_property_edges _ _) Hs) as Hedges.
    by rewrite (Hedges n Hpos x y).
  - simpl. rewrite pick_nat by done. simpl.
    replace (smallest_of (lessFunc h) (heaps h) n) with n;
      [by rewrite Z.eqb_refl|].
    unfold smallest_of. rewrite Ex.
    destruct (heaps h !! (2 * n + 1)%nat) as [a|] eqn:Ea.
    + rewrite (Hs n (2 * n + 1)%nat x a); [|by left|done..]. rewrite Ex.
      destruct (heaps h !! (2 * n + 2)%nat) as [b|] eqn:Eb; [|done].
      by rewrite (Hs n (2 * n + 2)%nat x b); [|by right|done..].
    + rewrite Ex. destruct (heaps h !! (2 * n + 2)%nat) as [b|] eqn:Eb; [|done].
      by rewrite (Hs n (2 * n + 2)%nat x b); [|by right|done..].
Qed.


Lemma up_inv_insert less `{!StrictWeakOrder less} s n old v :
  heap_property less s -> s !! n = Some old -> less old v = false ->
  up_inv less (<[n:=v]> s) n.
Proof.
  rewrite heap_property_edges. intros Hs Hold Hv.
  pose proof (lookup_lt_Some _ _ _ Hold) as Hn.
  split.
  - intros c Hc Hne a b. pose proof (parent_lt c Hc).
    rewrite list_lookup_insert_ne by done. intros Ha.
    destruct (decide (parent c = n)) as [Hp|Hp].
    + rewrite Hp, list_lookup_insert_eq by done. intros [= <-].
      apply (less_incomp a old v); [|done].
      apply (Hs c Hc); [done|]. by rewrite Hp.
    + rewrite list_lookup_insert_ne by done. by apply (Hs c Hc).
  - intros c a z Hpos Hc Hp. pose proof (parent_lt n Hpos).
    pose proof (parent_lt c Hc).
    rewrite !list_lookup_insert_ne by lia. intros Ha Hz.
    apply (less_incomp a old z).
    + apply (Hs c Hc); [done|]. by rewrite Hp.
    + by apply (Hs n Hpos).
Qed.

Lemma down_inv_insert less `{!StrictWeakOrder less} s n old v :
  heap_property less s -> s !! n = Some old ->
  n = 0%nat \/ less v old = false ->
  down_inv less (<[n:=v]> s) n.
Proof.
  rewrite heap_property_edges. intros Hs Hold Hv.
  pose proof (lookup_lt_Some _ _ _ Hold) as Hn.
  split.
  - intros c Hc Hp a b. pose proof (parent_lt c Hc).
    rewrite (list_lookup_insert_ne _ n (parent c)) by done.
    destruct (decide (c = n)) as [->|Hne].
    + rewrite list_lookup_insert_eq by done. intros [= <-] Hb.
      destruct Hv as [->|Hv]; [lia|].
      apply (less_incomp v old b); [done|]. by apply (Hs n Hc).
    + rewrite list_lookup_insert_ne by done. intros Ha Hb.
      by apply (Hs c Hc).
  - intros c a z Hpos Hc Hp. pose proof (parent_lt n Hpos).
    pose proof (parent_lt c Hc).
    rewrite !list_lookup_insert_ne by lia. intros Ha Hz.
    apply (less_incomp a old z).
    + apply (Hs c Hc); [done|]. by rewrite Hp.
    + by apply (Hs n Hpos).
Qed.

(** X11: [up] repairs a lowered element.  On a storage with the heap
    property under a strict weak order, after the element at a valid index
    is overwritten by one that the old element does not strictly precede,
    [up] from that index returns a heap with the heap property whose
    storage is a permutation of the overwritten one. *)
Theorem up_repairs h index old v :
  StrictWeakOrder (lessFunc h) -> heap_property (lessFunc h) (heaps h) ->
  at_ (heaps h) index = Done old -> lessFunc h old v = false ->
  exists s1 h',
    set_at (heaps h) index v = Done s1 /\
    up (length s1) (with_heaps h s1) index = Done h' /\
    heap_property (lessFunc h) (heaps h') /\ heaps h' ≡ₚ s1.
Proof.
  intros Hless Hs [Hi Hold]%at_Done Hv.
  pose proof (lookup_lt_Some _ _ _ Hold) as Hn.
  exists (<[Z.to_nat index:=v]> (heaps h)).
  destruct (up_spec (length (<[Z.to_nat index:=v]> (heaps h)))
              (with_heaps h (<[Z.to_nat index:=v]> (heaps h))) (Z.to_nat index))
    as (s' & Hup & Hperm & Hord); simpl; rewrite ?length_insert; try lia.
  rewrite Z2Nat.id, length_insert in Hup by lia.
  exists (with_heaps h s'). split.
  { unfold set_at, len. by rewrite bool_decide_eq_true_2 by lia. }
  split; [done|]. split; [|done]. simpl in *.
  apply Hord; [done|]. by apply (up_inv_insert _ _ _ old).
Qed.

(** X12: [down] repairs a raised element.  On a storage with the heap
    property under a strict weak order, after the element at a valid index
    is overwritten by one that does not strictly precede the old element,
    or the root is overwritten by any element, [down] from that index
    returns a heap with the heap property whose storage is a permutation
    of the overwritten one. *)
Theorem down_repairs h index old v :
  StrictWeakOrder (lessFunc h) -> heap_property (lessFunc h) (heaps h) ->
  at_ (heaps h) index = Done old ->
  index = 0 \/ lessFunc h v old = false ->
  exists s1 h',
    set_at (heaps h) index v = Done s1 /\
    down (length s1) (with_heaps h s1) index = Done h' /\
    heap_property (lessFunc h) (heaps h') /\ heaps h' ≡ₚ s1.
Proof.
  intros Hless Hs [Hi Hold]%at_Done Hv.
  pose proof (lookup_lt_Some _ _ _ Hold) as Hn.
  exists (<[Z.to_nat index:=v]> (heaps h)).
  destruct (down_spec (length (<[Z.to_nat index:=v]> (heaps h)))
              (with_heaps h (<[Z.to_nat index:=v]> (heaps h))) (Z.to_nat index))
    as (s' & Hdown & Hperm & Hord); simpl; rewrite ?length_insert; try lia.
  rewrite Z2Nat.id, length_insert in Hdown by lia.
  exists (with_heaps h s'). split.
  { unfold set_at, len. by rewrite bool_decide_eq_true_2 by lia. }
  split; [done|]. split; [|done]. simpl in *.
  apply Hord; [done|]. apply (down_inv_insert _ _ _ old); [done..|].
  destruct Hv as [->|Hv]; [by left|by right].
Qed.
End Helpers.

(** ** Heaps in order *)

Section Ordered.
Context {T : Type}.
Implicit Types (h : Heap T) (l s : list T).

Lemma heap_property_snoc less l x :
  heap_property less (l ++ [x]) -> heap_property less l.
Proof.
  intros Hs i c a b Hc Ha Hb.
  apply (Hs i c a b Hc); by apply lookup_app_l_Some.
Qed.

(** X13: a storage in order is rebuilt by pushing it.  Whatever the
    comparator, pushing the elements of a list that has the heap property,
    in the order of the list, on a fresh heap leaves the list itself as
    the storage: every storage with the heap property is reached by
    [Push] calls alone. *)
Theorem push_rebuilds less h0 l :
  NewAny (Some less) = (Some h0, None) ->
  heap_property less l ->
  run (map OpPush l) h0 = Done (with_heaps h0 l).
Proof.
  intros [Hnil Hless]%NewAny_fresh.
  induction l as [|x l IH] using rev_ind; intros Hs.
  - simpl. by rewrite <- Hnil, with_heaps_id.
  - rewrite map_app, run_app, (IH (heap_property_snoc _ _ _ Hs)), res_bind_Done.
    simpl. unfold Push. simpl.
    replace (len (l ++ [x]) - 1) with (Z.of_nat (length l))
      by (unfold len; rewrite length_app; simpl; lia).
    rewrite length_app. simpl.
    replace (length l + 1)%nat with (S (length l)) by lia. simpl.
    destruct (decide (length l = 0%nat)) as [E|NE]; [by rewrite E|].
    assert (0 < length l)%nat as Hpos by lia.
    replace (Z.of_nat (length l) <=? 0) with false by (symmetry; apply Z.leb_gt; lia).
    rewrite parent_quot by done.
    pose proof (parent_lt _ Hpos) as Hp.
    destruct (lookup_lt_is_Some_2 l (parent (length l)) Hp) as [y Hy].
    assert ((l ++ [x]) !! length l = Some x) as Hx
      by (by rewrite lookup_app_r, Nat.sub_diag).
    assert ((l ++ [x]) !! parent (length l) = Some y) as Hy'
      by (by apply lookup_app_l_Some).
    rewrite (precedes_nat _ (length l) (parent (length l)) x y); [|done..].
    simpl. rewrite Hless.
    pose proof (proj1 (heap_property_edges _ _) Hs) as Hedges.
    by rewrite (Hedges (length l) Hpos x y).
Qed.

(** X14: the top after a pop.  On a heap whose comparator is a strict
    weak order and whose storage has the heap property, when [Pop] leaves
    a storage that is not empty, the new top was stored before, does not
    strictly precede the old top, and is not strictly preceded by any
    element left. *)
Theorem top_after_pop h r h' :
  StrictWeakOrder (lessFunc h) -> heap_property (lessFunc h) (heaps h) ->
  Top h = Done r -> Pop h = Done h' -> Empty h' = false ->
  exists r', Top h' = Done r' /\ r' ∈ heaps h /\
    lessFunc h r' r = false /\ minimal_in (lessFunc h) r' (heaps h').
Proof.
  intros Hless Hs Htop Hpop Hne.
  destruct (heaps h) as [|r0 t] eqn:E.
  { apply Empty_nil in E. unfold Top in Htop. by rewrite E in Htop. }
  rewrite (Top_cons h r0 t E) in Htop. injection Htop as <-.
  destruct (Pop_spec h r0 t E) as (s' & Hpop' & Hperm & Hord).
  rewrite Hpop in Hpop'. injection Hpop' as ->. simpl in *.
  destruct s' as [|r' t'] eqn:Es; [done|].
  exists r'. split; [by apply (Top_cons _ _ t')|].
  assert (r' ∈ r0 :: t) as Hin.
  { rewrite <- E, <- Hperm. right. by left. }
  split; [done|]. split.
  - by apply (root_minimal (lessFunc h) (r0 :: t) r0).
  - apply (root_minimal (lessFunc h) (r' :: t') r'); [|done].
    apply Hord; [done|]. by rewrite E.
Qed.
End Ordered.

(** ** The further properties at concrete heaps *)

Section FurtherInstances.
Lemma heap_property_132 : heap_property Z.ltb [1; 3; 2].
Proof.
  intros i c x y Hc Hx Hy.
  destruct i as [|[|[|i]]]; destruct Hc as [-> | ->]; simpl in *;
    simplify_eq; reflexivity.
Qed.

Lemma len_132 : 0 <= 2 < len [1; 3; 2].
Proof. unfold len. simpl. lia. Qed.

Lemma heap_sort_witness :
  NewAny (Some Z.ltb) = (Some (heap_of []), None) /\
  exists h1 out h2,
    run (map OpPush [2; 3; 1; 2]) (heap_of []) = Done h1 /\
    drain 4 h1 = Done (out, h2) /\
    out ≡ₚ [2; 3; 1; 2] /\ nondecreasing Z.ltb out /\ Empty h2 = true /\
    drain 5 h1 = Panic empty_top.
Proof.
  split; [reflexivity|].
  apply (@heap_sort Z Z.ltb Z_ltb_StrictWeakOrder (heap_of []) [2; 3; 1; 2]).
  reflexivity.
Defined.

Lemma push_pop_round_trip_witness :
  NewAny (Some Z.gtb) = (Some {| heaps := []; lessFunc := Z.gtb |}, None) /\
  exists ha h1 h2,
    Push {| heaps := []; lessFunc := Z.gtb |} 7 = Done ha /\ Empty ha = false /\
    run (map OpPush [2; 9]) ha = Done h1 /\ Size h1 = len [7; 2; 9] /\
    (forall k, pops (3 + k) h1 = Done h2) /\
    Empty h2 = true.
Proof.
  split; [reflexivity|].
  apply (push_pop_round_trip Z.gtb {| heaps := []; lessFunc := Z.gtb |} 7 [2; 9]).
  reflexivity.
Defined.

Lemma push_sorted_in_place_witness :
  (NewAny (Some Z.ltb) = (Some (heap_of []), None) /\
   nondecreasing Z.ltb [1; 2; 2; 5]) /\
  run (map OpPush [1; 2; 2; 5]) (heap_of []) = Done (heap_of [1; 2; 2; 5]).
Proof.
  assert (nondecreasing Z.ltb [1; 2; 2; 5]) as Hsorted.
  { repeat constructor. }
  split; [split; [reflexivity|exact Hsorted]|].
  apply (push_sorted_in_place Z.ltb (heap_of []) [1; 2; 2; 5] eq_refl Hsorted).
Defined.

Lemma top_after_push_witness :
  heap_property Z.ltb [1; 3; 2] /\
  exists h', Push (heap_of [1; 3; 2]) 0 = Done h' /\ Top h' = Done 0.
Proof.
  split; [exact heap_property_132|].
  destruct (top_after_push (heap_of [1; 3; 2]) 0 Z_ltb_StrictWeakOrder
              heap_property_132) as (h' & Hpush & _ & Htop).
  exists h'. split; [exact Hpush|]. exact (Htop 1 eq_refl).
Defined.

Lemma up_depth_witness :
  0 <= 2 < len [1; 3; 2] /\
  exists h',
    (forall fuel, (Nat.log2 (Z.to_nat 2 + 1) < fuel)%nat ->
                  up fuel (heap_of [1; 3; 2]) 2 = Done h') /\
    heaps h' ≡ₚ [1; 3; 2] /\ lessFunc h' = Z.ltb.
Proof.
  split; [exact len_132|]. exact (up_depth (heap_of [1; 3; 2]) 2 len_132).
Defined.

Lemma down_depth_witness :
  0 <= 0 < len [5; 3; 2] /\
  exists h',
    (forall fuel,
       (Nat.log2 (length [5; 3; 2]) - Nat.log2 (Z.to_nat 0 + 1) < fuel)%nat ->
       down fuel (heap_of [5; 3; 2]) 0 = Done h') /\
    heaps h' ≡ₚ [5; 3; 2] /\ lessFunc h' = Z.ltb.
Proof.
  assert (0 <= 0 < len [5; 3; 2]) as Hi by (unfold len; simpl; lia).
  split; [exact Hi|]. exact (down_depth (heap_of [5; 3; 2]) 0 Hi).
Defined.

Lemma swap_within_bounds_witness :
  (0 <= 0 < len [1; 3; 2] /\ 0 <= 2 < len [1; 3; 2]) /\
  exists h',
    swap (heap_of [1; 3; 2]) 0 2 = Done h' /\
    swap (heap_of [1; 3; 2]) 2 0 = Done h' /\
    swap h' 0 2 = Done (heap_of [1; 3; 2]) /\
    Size h' = 3 /\ lessFunc h' = Z.ltb /\
    at_ (heaps h') 0 = Done 2 /\ at_ (heaps h') 2 = Done 1 /\
    (forall k, k <> 0 -> k <> 2 -> at_ (heaps h') k = at_ [1; 3; 2] k).
Proof.
  assert (0 <= 0 < len [1; 3; 2]) as Hi by (unfold len; simpl; lia).
  split; [split; [exact Hi|exact len_132]|].
  exact (swap_within_bounds (heap_of [1; 3; 2]) 0 2 Hi len_132).
Defined.

Lemma swap_out_of_bounds_witness :
  (~ (0 <= 1 < len [1; 3; 2]) \/ ~ (0 <= 3 < len [1; 3; 2])) /\
  swap (heap_of [1; 3; 2]) 1 3 = Panic index_out_of_range.
Proof.
  assert (~ (0 <= 1 < len [1; 3; 2]) \/ ~ (0 <= 3 < len [1; 3; 2])) as Hout.
  { right. unfold len. simpl. lia. }
  split; [exact Hout|]. exact (swap_out_of_bounds (heap_of [1; 3; 2]) 1 3 Hout).
Defined.

Lemma sift_keeps_ordered_witness :
  (heap_property Z.ltb [1; 3; 2] /\ 0 <= 2 < len [1; 3; 2]) /\
  up 1 (heap_of [1; 3; 2]) 2 = Done (heap_of [1; 3; 2]) /\
  down 1 (heap_of [1; 3; 2]) 2 = Done (heap_of [1; 3; 2]).
Proof.
  split; [split; [exact heap_property_132|exact len_132]|].
  exact (sift_keeps_ordered (heap_of [1; 3; 2]) 2 0 heap_property_132 len_132).
Defined.


Lemma up_repairs_witness :
  (heap_property Z.ltb [1; 3; 2] /\ at_ [1; 3; 2] 2 = Done 2 /\ (2 <? 0) = false) /\
  exists s1 h',
    set_at [1; 3; 2] 2 0 = Done s1 /\
    up (length s1) (heap_of s1) 2 = Done h' /\
    heap_property Z.ltb (heaps h') /\ heaps h' ≡ₚ s1.
Proof.
  split; [split; [exact heap_property_132|split; reflexivity]|].
  exact (up_repairs (heap_of [1; 3; 2]) 2 2 0 Z_ltb_StrictWeakOrder
           heap_property_132 eq_refl eq_refl).
Defined.

Lemma down_repairs_witness :
  (heap_property Z.ltb [1; 3; 2] /\ at_ [1; 3; 2] 0 = Done 1) /\
  exists s1 h',
    set_at [1; 3; 2] 0 5 = Done s1 /\
    down (length s1) (heap_of s1) 0 = Done h' /\
    heap_property Z.ltb (heaps h') /\ heaps h' ≡ₚ s1.
Proof.
  split; [split; [exact heap_property_132|reflexivity]|].
  exact (down_repairs (heap_of [1; 3; 2]) 0 1 5 Z_ltb_StrictWeakOrder
           heap_property_132 eq_refl (or_introl eq_refl)).
Defined.
Lemma push_rebuilds_witness :
  (NewAny (Some Z.ltb) = (Some (heap_of []), None) /\
   heap_property Z.ltb [1; 3; 2]) /\
  run (map OpPush [1; 3; 2]) (heap_of []) = Done (heap_of [1; 3; 2]).
Proof.
  split; [split; [reflexivity|exact heap_property_132]|].
  exact (push_rebuilds Z.ltb (heap_of []) [1; 3; 2] eq_refl heap_property_132).
Defined.

Lemma top_after_pop_witness :
  (heap_property Z.ltb [1; 3; 2] /\
   Top (heap_of [1; 3; 2]) = Done 1 /\
   Pop (heap_of [1; 3; 2]) = Done (heap_of [2; 3]) /\
   Empty (heap_of [2; 3]) = false) /\
  exists r', Top (heap_of [2; 3]) = Done r' /\ r' ∈ [1; 3; 2] /\
    (r' <? 1) = false /\ minimal_in Z.ltb r' [2; 3].
Proof.
  split; [split; [exact heap_property_132|repeat split; reflexivity]|].
  exact (top_after_pop (heap_of [1; 3; 2]) 1 (heap_of [2; 3])
           Z_ltb_StrictWeakOrder heap_property_132 eq_refl eq_refl eq_refl).
Defined.
End FurtherInstances.
